(** * Shallow embedding of undermoon's migration map, slot-range tags,
    replicator argument codec and memory-broker HTTP handlers.

    Sources:
    - src/src/migration/manager.rs   ([MigrationMap])
    - src/src/common/cluster.rs      ([SlotRangeTag] (de)serialisation)
    - src/src/replication/replicator.rs ([encode_repl_meta], [parse_repl_meta])
    - src/src/broker/service.rs      ([MemBrokerService] and its handlers) *)

From Stdlib Require Import String Ascii List Bool Arith NArith ZArith Lia.
From Stdlib Require Import DecimalString DecimalN.
Import ListNotations.
Set Warnings "-register-all".

(** ** Generic helpers *)

(** Rust's [Result<T, E>]. *)
Inductive Result (T E : Type) : Type :=
| Ok (t : T)
| Err (e : E).
Arguments Ok {T E} t.
Arguments Err {T E} e.

(** Decidable equality, as [#[derive(PartialEq, Eq, Hash)]] provides it for
    the keys of a [HashMap]. *)
Class EqDec (A : Type) := eq_dec : forall a b : A, {a = b} + {a <> b}.

#[export] Instance string_EqDec : EqDec string := string_dec.
#[export] Instance N_EqDec : EqDec N := N.eq_dec.
#[export] Instance nat_EqDec : EqDec nat := Nat.eq_dec.

(** A [std::collections::HashMap<K, V>] as an association list holding at most
    one binding per key: [insert] replaces the binding, [get] looks it up.
    The list order stands for the (unspecified) iteration order. *)
Definition HashMap (K V : Type) := list (K * V).

Section HashMapOps.
Context {K V : Type} `{EqDec K}.

Fixpoint hm_get (k : K) (m : HashMap K V) : option V :=
  match m with
  | [] => None
  | (k', v) :: rest => if eq_dec k k' then Some v else hm_get k rest
  end.

Definition hm_insert (k : K) (v : V) (m : HashMap K V) : HashMap K V :=
  (k, v) :: filter (fun kv => if eq_dec k (fst kv) then false else true) m.

Definition hm_contains_key (k : K) (m : HashMap K V) : bool :=
  match hm_get k m with Some _ => true | None => false end.

Definition hm_is_empty (m : HashMap K V) : bool :=
  match m with [] => true | _ => false end.

Definition hm_values (m : HashMap K V) : list V := map snd m.
End HashMapOps.

(** ** Migration map (src/src/migration/manager.rs) *)

Module Manager.

Definition ClusterName := string.

(** [MigrationMeta]: the planning epoch and the two ends of the migration. *)
Record MigrationMeta := {
  epoch : N;
  src_proxy_address : string;
  src_node_address : string;
  dst_proxy_address : string;
  dst_node_address : string;
}.

(** The slot-range tag as [manager.rs] matches on it: its matches have
    exactly the three arms [Migrating(meta)], [Importing(meta)] and [None]. *)
Module SlotRangeTag.
Inductive t :=
| Migrating (meta : MigrationMeta)
| Importing (meta : MigrationMeta)
| None.
End SlotRangeTag.

(** [RangeList]: the list of [Range(start, end)]. *)
Definition RangeList := list (nat * nat).

Record SlotRange := {
  range_list : RangeList;
  tag : SlotRangeTag.t;
}.

Definition to_range_list (sr : SlotRange) : RangeList := range_list sr.

(** [MigrationTaskMeta]: the key of a migration task. *)
Record MigrationTaskMeta := {
  cluster_name : ClusterName;
  slot_range : SlotRange;
}.

#[export] Instance MigrationMeta_EqDec : EqDec MigrationMeta.
Proof. intros a b; decide equality; apply eq_dec. Defined.

#[export] Instance SlotRangeTag_EqDec : EqDec SlotRangeTag.t.
Proof. intros a b; decide equality; apply eq_dec. Defined.

#[export] Instance SlotRange_EqDec : EqDec SlotRange.
Proof.
  intros a b; decide equality; [apply eq_dec |].
  apply list_eq_dec; intros x y; decide equality; apply eq_dec.
Defined.

#[export] Instance MigrationTaskMeta_EqDec : EqDec MigrationTaskMeta.
Proof. intros a b; decide equality; apply eq_dec. Defined.

(** Addresses of [Arc] allocations: identity of a task object. *)
Definition Ptr := nat.

(** [TaskRecord<T> = Either<Arc<dyn MigratingTask>, Arc<dyn ImportingTask>>]:
    [Left] holds a migrating (source-role) task, [Right] an importing one. *)
Inductive TaskRecord :=
| Left (task_ptr : Ptr)
| Right (task_ptr : Ptr).

(** [Arc<MgrTask<T>>]: the allocation of the record and the task it holds
    (the stop handle lives and dies with the record). *)
Record MgrTask := {
  mgr_ptr : Ptr;
  task : TaskRecord;
}.

Definition ClusterTask := HashMap MigrationTaskMeta MgrTask.
Definition TaskMap := HashMap ClusterName ClusterTask.

Record MigrationMap := {
  empty : bool;
  task_map : TaskMap;
}.

Record NewTask := {
  nt_cluster_name : ClusterName;
  nt_epoch : N;
  nt_range_list : RangeList;
  nt_task : TaskRecord;
}.

(** The command task [T: CmdTask + ClusterTag], with the parts of its state
    this module reads or writes. *)
Inductive TaskEvent := SentToMigrationBackend.

Inductive Resp :=
| RespError (msg : string)
| RespOther.

Record CmdTask := {
  cmd_cluster_name : ClusterName;
  cmd_slot : option nat;
  cmd_events : list TaskEvent;
  cmd_resp : option Resp;
}.

Definition get_cluster_name (t : CmdTask) : ClusterName := cmd_cluster_name t.
Definition get_slot (t : CmdTask) : option nat := cmd_slot t.

Definition log_event (e : TaskEvent) (t : CmdTask) : CmdTask :=
  {| cmd_cluster_name := cmd_cluster_name t; cmd_slot := cmd_slot t;
     cmd_events := cmd_events t ++ [e]; cmd_resp := cmd_resp t |}.

Definition set_resp_result (r : Resp) (t : CmdTask) : CmdTask :=
  {| cmd_cluster_name := cmd_cluster_name t; cmd_slot := cmd_slot t;
     cmd_events := cmd_events t; cmd_resp := Some r |}.

Inductive BlockingHint := NotBlocking | Blocking.

Record BlockingHintTask := {
  bh_task : CmdTask;
  bh_hint : BlockingHint;
}.

(** [ClusterSendError<BlockingHintTask<T>>]: the variants this module builds;
    [SendOther] stands for the others, which only the tasks produce. *)
Inductive ClusterSendError :=
| SlotNotFound (t : BlockingHintTask)
| MissingKey
| SendOther (code : nat).

Definition SendRes := Result unit ClusterSendError.

(** [MigrationError] of the tasks: [NotReady] is the one [handle_switch]
    distinguishes. *)
Module MigrationError.
Inductive t := NotReady | Other (code : nat).
End MigrationError.

Module SwitchError.
Inductive t :=
| InvalidArg
| TaskNotFound
| PeerMigrating
| NotReady
| MgrErr (e : MigrationError.t).
End SwitchError.

Inductive MgrSubCmd := PreCheck | PreSwitch | FinalSwitch.

Record SwitchArg := {
  version : string;
  meta : MigrationTaskMeta;
}.

(** The trait objects [dyn MigratingTask] and [dyn ImportingTask]: their
    methods, looked up by the allocation they live at. *)
Class TaskVTable := {
  migrating_contains_slot : Ptr -> nat -> bool;
  importing_contains_slot : Ptr -> nat -> bool;
  migrating_send : Ptr -> CmdTask -> SendRes;
  importing_send : Ptr -> CmdTask -> SendRes;
  migrating_send_sync_task : Ptr -> CmdTask -> SendRes;
  importing_handle_switch : Ptr -> SwitchArg -> MgrSubCmd -> Result unit MigrationError.t;
}.

Section Routing.
Context `{TaskVTable}.

(** [MigrationMap::empty] *)
Definition empty_map : MigrationMap := {| empty := true; task_map := [] |}.

(** The loop over [tasks.values()] in [send_helper]: the first task whose
    range contains the slot takes the command. Each result is paired with
    the command task's state when it leaves this code (its response slot is
    what the client sees). *)
Fixpoint send_to_tasks (ts : list MgrTask) (slot : nat) (cmd_task : CmdTask)
  : SendRes * CmdTask :=
  match ts with
  | [] => (Err (SlotNotFound {| bh_task := cmd_task; bh_hint := NotBlocking |}), cmd_task)
  | mgr_task :: rest =>
      match task mgr_task with
      | Left p =>
          if migrating_contains_slot p slot then (migrating_send p cmd_task, cmd_task)
          else send_to_tasks rest slot cmd_task
      | Right p =>
          if importing_contains_slot p slot then (importing_send p cmd_task, cmd_task)
          else send_to_tasks rest slot cmd_task
      end
  end.

Definition send_helper (tm : TaskMap) (cmd_task : CmdTask) : SendRes * CmdTask :=
  let cluster_name := get_cluster_name cmd_task in
  match hm_get cluster_name tm with
  | Some tasks =>
      match get_slot cmd_task with
      | Some slot => send_to_tasks (hm_values tasks) slot cmd_task
      | None =>
          let cmd_task := set_resp_result (RespError "missing key") cmd_task in
          (Err MissingKey, cmd_task)
      end
  | None => (Err (SlotNotFound {| bh_task := cmd_task; bh_hint := NotBlocking |}), cmd_task)
  end.

(** [MigrationMap::send] *)
Definition send (m : MigrationMap) (cmd_task : CmdTask) : SendRes * CmdTask :=
  let cmd_task := log_event SentToMigrationBackend cmd_task in
  if empty m then
    (Err (SlotNotFound {| bh_task := cmd_task; bh_hint := NotBlocking |}), cmd_task)
  else send_helper (task_map m) cmd_task.

(** The loop of [send_sync_task]: only the [Either::Left] arm delegates. *)
Fixpoint send_sync_to_tasks (ts : list MgrTask) (slot : nat) (cmd_task : CmdTask)
  : option (SendRes * CmdTask) :=
  match ts with
  | [] => None
  | mgr_task :: rest =>
      match task mgr_task with
      | Left p =>
          if migrating_contains_slot p slot
          then Some (migrating_send_sync_task p cmd_task, cmd_task)
          else send_sync_to_tasks rest slot cmd_task
      | Right _ => send_sync_to_tasks rest slot cmd_task
      end
  end.

(** [MigrationMap::send_sync_task] *)
Definition send_sync_task (m : MigrationMap) (cmd_task : CmdTask) : SendRes * CmdTask :=
  let cmd_task := log_event SentToMigrationBackend cmd_task in
  let not_found :=
    (Err (SlotNotFound {| bh_task := cmd_task; bh_hint := NotBlocking |}), cmd_task) in
  if empty m then not_found
  else
    match hm_get (get_cluster_name cmd_task) (task_map m) with
    | Some tasks =>
        match get_slot cmd_task with
        | Some slot =>
            match send_sync_to_tasks (hm_values tasks) slot cmd_task with
            | Some r => r
            | None => not_found
            end
        | None =>
            let cmd_task := set_resp_result (RespError "missing key") cmd_task in
            (Err MissingKey, cmd_task)
        end
    | None => not_found
    end.

(** [MigrationMap::handle_switch] *)
Definition handle_switch (m : MigrationMap) (switch_arg : SwitchArg) (sub_cmd : MgrSubCmd)
  : Result unit SwitchError.t :=
  match hm_get (cluster_name (meta switch_arg)) (task_map m) with
  | Some tasks =>
      match hm_get (meta switch_arg) tasks with
      | Some mgr_task =>
          match task mgr_task with
          | Left _ => Err SwitchError.PeerMigrating
          | Right p =>
              match importing_handle_switch p switch_arg sub_cmd with
              | Ok u => Ok u
              | Err MigrationError.NotReady => Err SwitchError.NotReady
              | Err others => Err (SwitchError.MgrErr others)
              end
          end
      | None => Err SwitchError.TaskNotFound
      end
  | None => Err SwitchError.TaskNotFound
  end.
End Routing.

(** [ProxyClusterMap::get_map()]: cluster name -> node address -> slot ranges,
    each level in its iteration order. *)
Definition ProxyClusterMap := HashMap ClusterName (HashMap string (list SlotRange)).

(** [migration_clusters.entry(cluster_name).or_insert_with(HashMap::new)]
    followed by [tasks.insert(meta, task)]. *)
Definition entry_insert (cn : ClusterName) (k : MigrationTaskMeta) (v : MgrTask)
    (m : TaskMap) : TaskMap :=
  let tasks := match hm_get cn m with Some tasks => tasks | None => [] end in
  hm_insert cn (hm_insert k v tasks) m.

(** The task registered under cluster [cn] and key [k]:
    [tm.get(cluster_name).and_then(|tasks| tasks.get(&meta))], as
    [update_from_old_task_map] and [handle_switch] look tasks up. *)
Definition get_task (tm : TaskMap) (cn : ClusterName) (k : MigrationTaskMeta)
    : option MgrTask :=
  match hm_get cn tm with
  | Some tasks => hm_get k tasks
  | None => None
  end.

(** Body of the first loop of [update_from_old_task_map]: keep the old task
    of a tagged range whose [MigrationTaskMeta] is already known. *)
Definition keep_old (old_task_map : TaskMap) (cn : ClusterName)
    (migration_clusters : TaskMap) (slot_range : SlotRange) : TaskMap :=
  match tag slot_range with
  | SlotRangeTag.Migrating _ =>
      let migration_meta := {| cluster_name := cn; slot_range := slot_range |} in
      match get_task old_task_map cn migration_meta with
      | Some migrating_task => entry_insert cn migration_meta migrating_task migration_clusters
      | None => migration_clusters
      end
  | SlotRangeTag.Importing _ =>
      let migration_meta := {| cluster_name := cn; slot_range := slot_range |} in
      match get_task old_task_map cn migration_meta with
      | Some importing_task => entry_insert cn migration_meta importing_task migration_clusters
      | None => migration_clusters
      end
  | SlotRangeTag.None => migration_clusters
  end.

(** State of the second loop: the task map being built, the [NewTask] list,
    and the next free allocation address. *)
Definition SpawnState := (TaskMap * list NewTask * Ptr)%type.

(** [Some(true) == migration_clusters.get(cluster_name).map(|tasks| tasks.contains_key(&meta))] *)
Definition already_kept (migration_clusters : TaskMap) (cn : ClusterName)
    (k : MigrationTaskMeta) : bool :=
  match hm_get cn migration_clusters with
  | Some tasks => hm_contains_key k tasks
  | None => false
  end.

(** Body of the second loop: create a task for every tagged range not kept.
    [Arc::new(Redis...Task::new(..))] allocates the task at [ptr] and
    [Arc::new(mgr_task)] allocates the record at [ptr + 1]; the task's
    configuration arguments do not matter here and are left out. *)
Definition spawn_new (cn : ClusterName) (st : SpawnState) (slot_range : SlotRange)
    : SpawnState :=
  let '(migration_clusters, new_tasks, ptr) := st in
  match tag slot_range with
  | SlotRangeTag.Migrating meta =>
      let epoch := epoch meta in
      let migration_meta := {| cluster_name := cn; slot_range := slot_range |} in
      if already_kept migration_clusters cn migration_meta then st
      else
        let t := Left ptr in
        let nt := {| nt_cluster_name := cn; nt_epoch := epoch;
                     nt_range_list := to_range_list slot_range; nt_task := t |} in
        let mgr_task := {| mgr_ptr := S ptr; task := t |} in
        (entry_insert cn migration_meta mgr_task migration_clusters,
         new_tasks ++ [nt], S (S ptr))
  | SlotRangeTag.Importing meta =>
      let epoch := epoch meta in
      let migration_meta := {| cluster_name := cn; slot_range := slot_range |} in
      if already_kept migration_clusters cn migration_meta then st
      else
        let t := Right ptr in
        let nt := {| nt_cluster_name := cn; nt_epoch := epoch;
                     nt_range_list := to_range_list slot_range; nt_task := t |} in
        let mgr_task := {| mgr_ptr := S ptr; task := t |} in
        (entry_insert cn migration_meta mgr_task migration_clusters,
         new_tasks ++ [nt], S (S ptr))
  | SlotRangeTag.None => st
  end.

(** [MigrationMap::update_from_old_task_map]; [next_ptr] is the allocator
    state (the first address not yet in use). *)
Definition update_from_old_task_map (self : MigrationMap) (local_cluster_map : ProxyClusterMap)
    (next_ptr : Ptr) : MigrationMap * list NewTask :=
  let old_task_map := task_map self in
  let new_cluster_map := local_cluster_map in
  let migration_clusters :=
    fold_left (fun acc '(cluster_name, node_map) =>
      fold_left (fun acc '(_node, slot_ranges) =>
        fold_left (keep_old old_task_map cluster_name) slot_ranges acc)
        node_map acc)
      new_cluster_map [] in
  let '(migration_clusters, new_tasks, _) :=
    fold_left (fun st '(cluster_name, node_map) =>
      fold_left (fun st '(_node, slot_ranges) =>
        fold_left (spawn_new cluster_name) slot_ranges st)
        node_map st)
      new_cluster_map (migration_clusters, [], next_ptr) in
  let empty := hm_is_empty migration_clusters in
  ({| empty := empty; task_map := migration_clusters |}, new_tasks).

(** Vocabulary of the claims about [MigrationMap]. *)

(** Every slot range of the new cluster map with its cluster, in the order
    the loops of [update_from_old_task_map] visit them. *)
Definition flat_ranges (local_cluster_map : ProxyClusterMap) : list (ClusterName * SlotRange) :=
  flat_map (fun '(cn, node_map) =>
              flat_map (fun '(_node, slot_ranges) => map (fun sr => (cn, sr)) slot_ranges)
                node_map) local_cluster_map.

Definition is_tagged (sr : SlotRange) : bool :=
  match tag sr with
  | SlotRangeTag.None => false
  | _ => true
  end.

Definition task_meta (cn : ClusterName) (sr : SlotRange) : MigrationTaskMeta :=
  {| cluster_name := cn; slot_range := sr |}.

Definition task_ptr_of (t : TaskRecord) : Ptr :=
  match t with Left p => p | Right p => p end.

(** A [NewTask] describes the range [sr] of cluster [cn]: same cluster, range
    list and epoch, and a task of the role the tag asks for. *)
Definition new_task_describes (nt : NewTask) (cn : ClusterName) (sr : SlotRange) : Prop :=
  nt_cluster_name nt = cn /\ nt_range_list nt = range_list sr /\
  match tag sr, nt_task nt with
  | SlotRangeTag.Migrating meta, Left _ => nt_epoch nt = epoch meta
  | SlotRangeTag.Importing meta, Right _ => nt_epoch nt = epoch meta
  | _, _ => False
  end.

(** The invariant of a [MigrationMap]: the [empty] flag says whether the task
    map has no cluster, and no cluster maps to an empty set of tasks. *)
Definition wf_map (m : MigrationMap) : Prop :=
  empty m = hm_is_empty (task_map m) /\
  (forall cn tasks, In (cn, tasks) (task_map m) -> tasks <> []).

(** No cluster of a task map maps to an empty set of tasks. *)
Definition clusters_nonempty (mc : TaskMap) : Prop :=
  forall cn tasks, In (cn, tasks) mc -> tasks <> [].

(** The range [sr] of cluster [cn] is a tagged range of the list. *)
Definition key_in (L : list (ClusterName * SlotRange)) (cn : ClusterName)
    (k : MigrationTaskMeta) : Prop :=
  exists sr, In (cn, sr) L /\ is_tagged sr = true /\ k = task_meta cn sr.

(** The invariant of the second loop, relative to the map [mc1] left by the
    first one and to the first free address [next_ptr]. *)
Definition pass2_inv (L : list (ClusterName * SlotRange)) (mc1 : TaskMap) (next_ptr : Ptr)
    (st : SpawnState) : Prop :=
  let '(mc, nts, ptr) := st in
  next_ptr <= ptr /\
  (forall cn k t, get_task mc1 cn k = Some t -> get_task mc cn k = Some t) /\
  (forall cn k t, get_task mc cn k = Some t ->
     get_task mc1 cn k = Some t \/
     exists sr nt, k = task_meta cn sr /\ In (cn, sr) L /\ In nt nts /\ nt_task nt = task t /\
       new_task_describes nt cn sr /\ next_ptr <= task_ptr_of (task t) < ptr) /\
  (forall nt, In nt nts ->
     exists sr t, In (nt_cluster_name nt, sr) L /\
       get_task mc1 (nt_cluster_name nt) (task_meta (nt_cluster_name nt) sr) = None /\
       get_task mc (nt_cluster_name nt) (task_meta (nt_cluster_name nt) sr) = Some t /\
       task t = nt_task nt /\ new_task_describes nt (nt_cluster_name nt) sr /\
       next_ptr <= task_ptr_of (nt_task nt) < ptr).

(** [RangeList] as the key of the [HashMap] built by [get_states]. *)
#[export] Instance RangeList_EqDec : EqDec RangeList.
Proof. intros a b; apply list_eq_dec; intros x y; decide equality; apply eq_dec. Defined.

(** [MigratingTask::get_state] and [ImportingTask::get_state]. The type
    [MigrationState] of src/migration/task.rs is not in the sources: it is
    kept abstract, with its [PartialEq] and the variant [SwitchCommitted]
    that [get_finished_tasks] compares with. *)
Class TaskStates (MigrationState : Type) := {
  migrating_get_state : Ptr -> MigrationState;
  importing_get_state : Ptr -> MigrationState;
}.

Section States.
Context {MigrationState : Type} `{EqDec MigrationState} `{TaskStates MigrationState}.
Variable SwitchCommitted : MigrationState.

(** [match &mgr_task.task { Either::Left(t) => t.get_state(),
    Either::Right(t) => t.get_state() }] *)
Definition get_state (t : TaskRecord) : MigrationState :=
  match t with
  | Left p => migrating_get_state p
  | Right p => importing_get_state p
  end.

(** [MigrationMap::get_finished_tasks] *)
Definition get_finished_tasks (m : MigrationMap) : list MigrationTaskMeta :=
  flat_map (fun '(_cluster_name, tasks) =>
              flat_map (fun '(meta, mgr_task) =>
                          if eq_dec (get_state (task mgr_task)) SwitchCommitted
                          then [meta] else []) tasks)
    (task_map m).

(** [MigrationMap::get_states] *)
Definition get_states (m : MigrationMap) (cluster_name : ClusterName)
    : HashMap RangeList MigrationState :=
  match hm_get cluster_name (task_map m) with
  | Some tasks =>
      fold_left (fun acc '(meta, mgr_task) =>
                   hm_insert (to_range_list (slot_range meta)) (get_state (task mgr_task)) acc)
        tasks []
  | None => []
  end.
End States.

Local Open Scope string_scope.

(** A sample set of tasks, to run the claims on: the migrating task at any
    address covers slots 0..99, the importing one slots 100..; every send
    succeeds, and the importing task at address 2 is not ready to switch. *)
Definition sample_vtable : TaskVTable := {|
  migrating_contains_slot := fun _ slot => Nat.ltb slot 100;
  importing_contains_slot := fun _ slot => Nat.leb 100 slot;
  migrating_send := fun _ _ => Ok tt;
  importing_send := fun _ _ => Ok tt;
  migrating_send_sync_task := fun _ _ => Ok tt;
  importing_handle_switch := fun p _ _ =>
    if Nat.eqb p 2 then Err MigrationError.NotReady else Ok tt;
|}.

Definition sample_meta : MigrationMeta := {|
  epoch := 7; src_proxy_address := "127.0.0.1:6001"; src_node_address := "127.0.0.1:7001";
  dst_proxy_address := "127.0.0.1:6002"; dst_node_address := "127.0.0.1:7002" |}.

Definition sample_migrating_range : SlotRange :=
  {| range_list := [(0, 99)]; tag := SlotRangeTag.Migrating sample_meta |}.

Definition sample_importing_range : SlotRange :=
  {| range_list := [(100, 199)]; tag := SlotRangeTag.Importing sample_meta |}.

(** Cluster ["mydb"] with one migrating task (task at 0, record at 1) and one
    importing task (task at 2, record at 3). *)
Definition sample_map : MigrationMap := {|
  empty := false;
  task_map :=
    [("mydb", [(task_meta "mydb" sample_migrating_range, {| mgr_ptr := 1; task := Left 0 |});
               (task_meta "mydb" sample_importing_range, {| mgr_ptr := 3; task := Right 2 |})])]
|}.

(** A new cluster map for ["mydb"]: the migrating range is unchanged, the
    importing range 100..199 is gone, an importing range 200..299 appears,
    and the remaining slots are untagged. *)
Definition sample_new_importing_range : SlotRange :=
  {| range_list := [(200, 299)]; tag := SlotRangeTag.Importing sample_meta |}.

Definition sample_cluster_map : ProxyClusterMap :=
  [("mydb", [("127.0.0.1:6001",
               [sample_migrating_range; {| range_list := [(300, 399)]; tag := SlotRangeTag.None |}]);
             ("127.0.0.1:6002", [sample_new_importing_range])])].

Definition sample_switch_arg (k : MigrationTaskMeta) : SwitchArg :=
  {| version := "v1"; meta := k |}.

Definition sample_cmd (slot : option nat) : CmdTask :=
  {| cmd_cluster_name := "mydb"; cmd_slot := slot; cmd_events := []; cmd_resp := None |}.

(** States of the sample tasks, with [4] standing for [SwitchCommitted]:
    the migrating task at address 0 has committed its switch, the others
    are at state [1]. *)
Definition sample_states : TaskStates nat := {|
  migrating_get_state := fun p => if Nat.eqb p 0 then 4 else 1;
  importing_get_state := fun _ => 1;
|}.

End Manager.

(** ** Slot-range tags as serialised by src/src/common/cluster.rs *)

Module Cluster.

(** [enum SlotRangeTag { Migrating(String), None }]: a migrating range
    carries its destination address only. *)
Module SlotRangeTag.
Inductive t :=
| Migrating (dst : string)
| None.
End SlotRangeTag.

Record SlotRange := {
  start : nat;
  end_ : nat;
  tag : SlotRangeTag.t;
}.

(** [str::split(' ')]: the pieces between spaces, empty ones included. *)
Fixpoint split_space (s : string) : list string :=
  match s with
  | EmptyString => [EmptyString]
  | String c rest =>
      let segs := split_space rest in
      if Ascii.eqb c " " then EmptyString :: segs
      else match segs with
           | w :: ws => String c w :: ws
           | [] => [String c EmptyString]
           end
  end.

(** [str::split_terminator(' ')]: as [split], but a trailing empty piece is
    skipped. *)
Definition split_terminator (s : string) : list string :=
  let segs := split_space s in
  match rev segs with
  | EmptyString :: init => rev init
  | _ => segs
  end.

(** A string with no space in it: one piece for [split(' ')]. *)
Definition no_space (s : string) : bool :=
  forallb (fun c => negb (Ascii.eqb c " "%char)) (list_ascii_of_string s).

(** [impl Serialize for SlotRangeTag] *)
Definition serialize (t : SlotRangeTag.t) : string :=
  match t with
  | SlotRangeTag.Migrating dst => "migrating " ++ dst
  | SlotRangeTag.None => EmptyString
  end.

(** [impl Deserialize for SlotRangeTag]; the error is [D::Error::custom]'s
    message. *)
Definition deserialize (s : string) : Result SlotRangeTag.t string :=
  match split_terminator s with
  | [] => Ok SlotRangeTag.None
  | flag :: segs =>
      if negb (String.eqb flag "migrating") then Err "Invalid flag"%string
      else
        match segs with
        | dst :: _ => Ok (SlotRangeTag.Migrating dst)
        | [] => Err "Missing destination address"%string
        end
  end.

End Cluster.

(** ** Replicator arguments (src/src/replication/replicator.rs) *)

Module Replicator.

(** Byte strings: a Rust [String] is a byte string that is valid UTF-8. *)
Definition in_range (lo hi : nat) (c : ascii) : bool :=
  (lo <=? nat_of_ascii c) && (nat_of_ascii c <=? hi).

Definition cont (c : ascii) : bool := in_range 128 191 c.

(** UTF-8 validity as [str::from_utf8] checks it (no overlong forms, no
    surrogates, nothing above U+10FFFF). *)
Fixpoint utf8_valid (s : string) : bool :=
  match s with
  | EmptyString => true
  | String c rest =>
      if in_range 0 127 c then utf8_valid rest
      else if in_range 194 223 c then
        match rest with
        | String c1 r => cont c1 && utf8_valid r
        | _ => false
        end
      else if in_range 224 244 c then
        let n := nat_of_ascii c in
        let lo1 := if n =? 224 then 160 else if n =? 240 then 144 else 128 in
        let hi1 := if n =? 237 then 159 else if n =? 244 then 143 else 191 in
        match rest with
        | String c1 (String c2 r) =>
            in_range lo1 hi1 c1 && cont c2 &&
            (if n <? 240 then utf8_valid r
             else match r with
                  | String c3 r' => cont c3 && utf8_valid r'
                  | _ => false
                  end)
        | _ => false
        end
      else false
  end.

(** [str::from_utf8] *)
Definition from_utf8 (s : string) : option string :=
  if utf8_valid s then Some s else None.

(** [u64::to_string] (and [usize::to_string] on a 64-bit target). *)
Definition u64_to_string (n : N) : string := NilZero.string_of_uint (N.to_uint n).

(** The optional leading [+] that [u64::from_str] accepts. *)
Definition strip_plus (s : string) : string :=
  match s with
  | String "+" rest => rest
  | _ => s
  end.

(** [str::parse::<u64>()]: an optional [+], then at least one decimal digit,
    and a value below 2^64. *)
Definition parse_u64 (s : string) : option N :=
  match NilZero.uint_of_string (strip_plus s) with
  | Some d => let n := N.of_uint d in if (n <? 2 ^ 64)%N then Some n else None
  | None => None
  end.

Definition upper_ascii (c : ascii) : ascii :=
  if in_range 97 122 c then ascii_of_nat (nat_of_ascii c - 32) else c.

(** [str::to_uppercase] restricted to ASCII strings: ASCII letters are
    mapped to upper case and every other byte is kept. On a string of ASCII
    characters this is Rust's result; Rust's Unicode mapping also changes
    non-ASCII letters (['ſ'] to ["S"], ['ı'] to ["I"], ['ß'] to ["SS"]),
    which this model does not, so the properties below compare role and
    flag words that are ASCII: those [encode_repl_meta] and [to_arg] write,
    or words assumed ASCII. *)
Fixpoint to_uppercase (s : string) : string :=
  match s with
  | EmptyString => EmptyString
  | String c rest => String (upper_ascii c) (to_uppercase rest)
  end.

Record ReplPeer := {
  node_address : string;
  proxy_address : string;
}.

Record DBMapFlags := { force : bool }.

(** Modelled from the spec: [DBMapFlags::to_arg] and [DBMapFlags::from_arg]
    (src/common/db.rs is not in the sources). The spec makes encoding then
    decoding the identity; the replicator tests encode [force] as ["FORCE"],
    no flag as ["NOFLAG"], and decode the lower-case ["force"] as [force]. *)
Definition to_arg (f : DBMapFlags) : string :=
  if force f then "FORCE" else "NOFLAG".

Definition from_arg (s : string) : DBMapFlags :=
  {| force := String.eqb (to_uppercase s) "FORCE" |}.

Module MasterMeta.
Record t := {
  db_name : string;
  master_node_address : string;
  replicas : list ReplPeer;
}.
End MasterMeta.

Module ReplicaMeta.
Record t := {
  db_name : string;
  replica_node_address : string;
  masters : list ReplPeer;
}.
End ReplicaMeta.

Record ReplicatorMeta := {
  epoch : N;
  flags : DBMapFlags;
  masters : list MasterMeta.t;
  replicas : list ReplicaMeta.t;
}.

(** The RESP values [parse_repl_meta] looks at. *)
Inductive BulkStr :=
| Str (bytes : string)
| BulkNil.

Inductive Resp :=
| Error (bytes : string)
| Simple (bytes : string)
| Integer (bytes : string)
| Bulk (b : BulkStr)
| Arr (a : list Resp)
| ArrNil.

Inductive CmdParseError := ParseError.

(** The [for _ in 0..peer_num] loop. *)
Fixpoint parse_peers (peer_num : nat) (it : list string)
  : Result (list ReplPeer * list string) CmdParseError :=
  match peer_num with
  | O => Ok ([], it)
  | S k =>
      match it with
      | node_address :: proxy_address :: rest =>
          match parse_peers k rest with
          | Ok (peers, rest') =>
              Ok ({| node_address := node_address; proxy_address := proxy_address |} :: peers, rest')
          | Err e => Err e
          end
      | _ => Err ParseError
      end
  end.

(** The [while it.peek().is_some()] loop; every round takes at least four
    arguments, so [fuel = length it] rounds always suffice. *)
Fixpoint parse_roles (fuel : nat) (it : list string) (master_meta_array : list MasterMeta.t)
    (replica_meta_array : list ReplicaMeta.t)
  : Result (list MasterMeta.t * list ReplicaMeta.t) CmdParseError :=
  match it with
  | [] => Ok (master_meta_array, replica_meta_array)
  | _ =>
      match fuel with
      | O => Err ParseError
      | S fuel =>
          match it with
          | role :: db_name :: node_address :: peer_num_str :: rest =>
              match parse_u64 peer_num_str with
              | None => Err ParseError
              | Some peer_num =>
                  match parse_peers (N.to_nat peer_num) rest with
                  | Err e => Err e
                  | Ok (peers, rest) =>
                      if String.eqb (to_uppercase role) "MASTER" then
                        parse_roles fuel rest
                          (master_meta_array ++
                             [{| MasterMeta.db_name := db_name;
                                 MasterMeta.master_node_address := node_address;
                                 MasterMeta.replicas := peers |}])
                          replica_meta_array
                      else if String.eqb (to_uppercase role) "REPLICA" then
                        parse_roles fuel rest master_meta_array
                          (replica_meta_array ++
                             [{| ReplicaMeta.db_name := db_name;
                                 ReplicaMeta.replica_node_address := node_address;
                                 ReplicaMeta.masters := peers |}])
                      else Err ParseError
                  end
              end
          | _ => Err ParseError
          end
      end
  end.

(** [arr.iter().skip(2).flat_map(..)]: the UTF-8 bulk strings after the two
    command words. *)
Definition arg_strings (arr : list Resp) : list string :=
  flat_map (fun resp =>
              match resp with
              | Bulk (Str safe_str) =>
                  match from_utf8 safe_str with
                  | Some s => [s]
                  | None => []
                  end
              | _ => []
              end) (skipn 2 arr).

(** [parse_repl_meta] *)
Definition parse_repl_meta (resp : Resp) : Result ReplicatorMeta CmdParseError :=
  match resp with
  | Arr arr =>
      let it := arg_strings arr in
      match it with
      | [] => Err ParseError
      | epoch_str :: it =>
          match parse_u64 epoch_str with
          | None => Err ParseError
          | Some epoch =>
              match it with
              | [] => Err ParseError
              | flag_str :: it =>
                  let flags := from_arg flag_str in
                  match parse_roles (length it) it [] [] with
                  | Err e => Err e
                  | Ok (master_meta_array, replica_meta_array) =>
                      Ok {| epoch := epoch; flags := flags;
                            masters := master_meta_array;
                            replicas := replica_meta_array |}
                  end
              end
          end
      end
  | _ => Err ParseError
  end.

Definition encode_peers (peers : list ReplPeer) : list string :=
  flat_map (fun p => [node_address p; proxy_address p]) peers.

(** The body of the [for master in masters.iter()] loop of
    [encode_repl_meta]. *)
Definition encode_master (master : MasterMeta.t) : list string :=
  ["master"%string; MasterMeta.db_name master; MasterMeta.master_node_address master;
   u64_to_string (N.of_nat (length (MasterMeta.replicas master)))] ++
  encode_peers (MasterMeta.replicas master).

(** The body of the [for replica in replicas.iter()] loop. *)
Definition encode_replica (replica : ReplicaMeta.t) : list string :=
  ["replica"%string; ReplicaMeta.db_name replica; ReplicaMeta.replica_node_address replica;
   u64_to_string (N.of_nat (length (ReplicaMeta.masters replica)))] ++
  encode_peers (ReplicaMeta.masters replica).

(** [encode_repl_meta] *)
Definition encode_repl_meta (meta : ReplicatorMeta) : list string :=
  [u64_to_string (epoch meta); to_arg (flags meta)] ++
  flat_map encode_master (masters meta) ++
  flat_map encode_replica (replicas meta).

(** A [ReplicatorMeta] as Rust values have it: every string is valid UTF-8
    (a [String]), the epoch is a [u64], and a peer list is shorter than
    2^64 (a [Vec]'s length is a [usize]). *)
Definition peer_ok (p : ReplPeer) : Prop :=
  utf8_valid (node_address p) = true /\ utf8_valid (proxy_address p) = true.

Definition master_ok (m : MasterMeta.t) : Prop :=
  utf8_valid (MasterMeta.db_name m) = true /\
  utf8_valid (MasterMeta.master_node_address m) = true /\
  Forall peer_ok (MasterMeta.replicas m) /\
  (N.of_nat (length (MasterMeta.replicas m)) < 2 ^ 64)%N.

Definition replica_ok (r : ReplicaMeta.t) : Prop :=
  utf8_valid (ReplicaMeta.db_name r) = true /\
  utf8_valid (ReplicaMeta.replica_node_address r) = true /\
  Forall peer_ok (ReplicaMeta.masters r) /\
  (N.of_nat (length (ReplicaMeta.masters r)) < 2 ^ 64)%N.

Definition valid_meta (meta : ReplicatorMeta) : Prop :=
  (epoch meta < 2 ^ 64)%N /\ Forall master_ok (masters meta) /\ Forall replica_ok (replicas meta).

(** The metadata of the test [test_parse_and_encode_multi_replicators]. *)
Definition sample_repl_meta : ReplicatorMeta := {|
  epoch := 233; flags := {| force := false |};
  masters := [{| MasterMeta.db_name := "testdb"; MasterMeta.master_node_address := "localhost:6000";
                 MasterMeta.replicas := [{| node_address := "localhost:6001";
                                            proxy_address := "localhost:5299" |}] |}];
  replicas := [{| ReplicaMeta.db_name := "testdb"; ReplicaMeta.replica_node_address := "localhost:6001";
                  ReplicaMeta.masters := [{| node_address := "localhost:6000";
                                             proxy_address := "localhost:5299" |}] |}] |}.

End Replicator.

(** ** Memory broker service (src/src/broker/service.rs) *)

Module Broker.

Inductive MetaSyncError :=
| Lock
| SyncOther (code : nat).

Inductive MetaStoreError :=
| InUse | NotInUse | NoAvailableResource | ResourceNotBalance | AlreadyExisted
| ClusterNotFound | FreeNodeNotFound | FreeNodeFound | ProxyNotFound | InvalidNodeNum
| NodeNumAlreadyEnough | InvalidClusterName | InvalidMigrationTask | InvalidProxyAddress
| MigrationTaskNotFound | MigrationRunning | InvalidConfig (key : string) (error : string)
| SlotsAlreadyEven | SyncError (e : MetaSyncError) | InvalidMetaVersion | SmallEpoch
| MissingIndex | ProxyResourceOutOfOrder | OrderedProxyEnabled | OneClusterAlreadyExisted
| ProxyNotSync | NodeNumberChanging.

(** [impl ResponseError for MetaStoreError]: [status_code]. *)
Definition status_code (e : MetaStoreError) : nat :=
  match e with
  | InUse => 409 | NotInUse => 409 | NoAvailableResource => 409
  | ResourceNotBalance => 409 | AlreadyExisted => 409 | ClusterNotFound => 404
  | FreeNodeNotFound => 404 | FreeNodeFound => 409 | ProxyNotFound => 404
  | InvalidNodeNum => 400 | NodeNumAlreadyEnough => 409 | InvalidClusterName => 400
  | InvalidMigrationTask => 400 | InvalidProxyAddress => 400
  | MigrationTaskNotFound => 404 | MigrationRunning => 409 | InvalidConfig _ _ => 400
  | SlotsAlreadyEven => 400 | SyncError _ => 500 | InvalidMetaVersion => 409
  | SmallEpoch => 409 | MissingIndex => 400 | ProxyResourceOutOfOrder => 409
  | OrderedProxyEnabled => 409 | OneClusterAlreadyExisted => 409 | ProxyNotSync => 500
  | NodeNumberChanging => 409
  end.

(** Modelled from the spec: the [From<MetaSyncError> for MetaStoreError]
    conversion that [?] applies to [trigger_update]'s error (store.rs is not
    in the sources); "persistence/replication errors surface as 500". *)
Definition from_sync_error (e : MetaSyncError) : MetaStoreError := SyncError e.

(** The parts of [MetaStore] these handlers touch: the global epoch, the
    clusters' epochs, the proxies and the failure reports
    (address -> reporter -> report time in seconds). *)
Record MetaStore := {
  global_epoch : N;
  cluster_epochs : list (string * N);
  all_proxies : list string;
  failures : list (string * list (string * nat));
  enable_ordered_proxy : bool;
}.

Record MemBrokerConfig := {
  failure_ttl : N;  (* u64, in seconds *)
  failure_quorum : nat;
  auto_update_meta_file : bool;
  debug : bool;
}.

(** What a handler does to the shared [Arc<RwLock<MetaStore>>]: which lock
    it takes, and when it hands the store to [MetaStorage::store]. *)
Inductive StoreEvent := ReadLock | WriteLock | PersistFile.

(** A handler: state passing over the store, with the trace of its lock and
    persistence events. *)
Definition M (A : Type) := MetaStore -> A * MetaStore * list StoreEvent.

Definition ret {A} (a : A) : M A := fun s => (a, s, []).

Definition bind {A B} (m : M A) (k : A -> M B) : M B :=
  fun s => let '(a, s1, t1) := m s in
           let '(b, s2, t2) := k a s1 in
           (b, s2, t1 ++ t2).

Notation "x <- m ;; k" := (bind m (fun x => k))
  (at level 61, m at next level, right associativity).

(** [self.store.read().expect(..).f()]: a query through [&MetaStore]. *)
Definition read_store {A} (f : MetaStore -> A) : M A :=
  fun s => (f s, s, [ReadLock]).

(** [self.store.write().expect(..).f()]: a call through [&mut MetaStore]. *)
Definition write_store {A} (f : MetaStore -> A * MetaStore) : M A :=
  fun s => let '(a, s') := f s in (a, s', [WriteLock]).

(** Modelled from the spec: [MetaStore::get_failures(ttl, quorum)]
    (store.rs is not in the sources): "first prunes entries older than
    now - ttl, then returns addresses whose remaining reporter count is at
    least quorum". The TTL is a [chrono::Duration] in seconds, which may be
    negative. *)
Definition store_get_failures (now : nat) (ttl : Z) (quorum : nat) (s : MetaStore)
  : list string * MetaStore :=
  let pruned :=
    map (fun '(addr, reporters) =>
           (addr, filter (fun '(_, t) => (Z.of_nat now <=? Z.of_nat t + ttl)%Z) reporters))
      (failures s) in
  (map fst (filter (fun '(_, reporters) => quorum <=? length reporters) pruned),
   {| global_epoch := global_epoch s; cluster_epochs := cluster_epochs s;
      all_proxies := all_proxies s; failures := pruned;
      enable_ordered_proxy := enable_ordered_proxy s |}).

(** Modelled from the spec: [MetaStore::recover_epoch(e)], "unconditional set
    of global_epoch := max(global_epoch, e)". *)
Definition store_recover_epoch (e : N) (s : MetaStore) : unit * MetaStore :=
  (tt, {| global_epoch := N.max (global_epoch s) e; cluster_epochs := cluster_epochs s;
          all_proxies := all_proxies s; failures := failures s;
          enable_ordered_proxy := enable_ordered_proxy s |}).

(** Modelled from the spec: [MetaStore::get_proxies], the addresses of all
    proxies. *)
Definition get_proxies (s : MetaStore) : list string := all_proxies s.

Record EpochFetchResult := {
  max_epoch : N;
  failed_addresses : list string;
}.

(** Modelled from the spec: [fetch_max_epoch] (broker/epoch.rs is not in the
    sources) asks every proxy for its epoch and aggregates
    [{max_epoch, failed_addresses}]; [reply addr] is the epoch the proxy
    answered, [None] when the call failed. *)
Definition fetch_max_epoch (reply : string -> option N) (proxy_addresses : list string)
  : EpochFetchResult :=
  {| max_epoch :=
       fold_left (fun acc addr => match reply addr with
                                  | Some e => N.max acc e
                                  | None => acc
                                  end) proxy_addresses 0%N;
     failed_addresses :=
       filter (fun addr => match reply addr with None => true | Some _ => false end)
         proxy_addresses |}.

(** [n as i64] for a [u64] [n]: the same 64 bits read in two's
    complement, so a value of 2^63 or more becomes negative. *)
Definition u64_as_i64 (n : N) : Z :=
  let z := Z.of_N (n mod 2 ^ 64) in
  if (z <? 2 ^ 63)%Z then z else (z - 2 ^ 64)%Z.

(** [i64::MAX] *)
Definition i64_max : Z := (2 ^ 63 - 1)%Z.

(** [chrono::Duration::seconds(secs)]: a duration of [secs] seconds, or a
    panic ([None]) when it lies outside chrono's range of [i64::MAX]
    milliseconds either way, i.e. when [|secs| > i64::MAX / 1000]. *)
Definition duration_seconds (secs : Z) : option Z :=
  if ((- (i64_max / 1000) <=? secs) && (secs <=? i64_max / 1000))%Z then Some secs else None.

(** [u64] addition as a release build runs it (wrapping; a debug build
    panics instead on overflow). *)
Definition u64_add (a b : N) : N := ((a + b) mod 2 ^ 64)%N.

(** The HTTP GET routes registered in [configure_app]. *)
Inductive GetRoute :=
| GetVersion            (* GET /version *)
| GetAllMetadata        (* GET /metadata *)
| GetClusterNames       (* GET /clusters/names *)
| GetClusterByName      (* GET /clusters/meta/{cluster_name} *)
| GetProxyAddresses     (* GET /proxies/addresses *)
| GetProxyByAddress     (* GET /proxies/meta/{address} *)
| GetFailures           (* GET /failures *)
| GetFailedProxies      (* GET /proxies/failed/addresses *)
| GetClusterInfoByName  (* GET /clusters/info/{cluster_name} *)
| GetBrokerConfig       (* GET /config *)
| GetEpoch.             (* GET /epoch *)

(** The mutating routes whose handler calls [trigger_update]. *)
Inductive MutRoute :=
| AddProxy | AddCluster | RemoveCluster | AutoScaleUpNodes | AutoAddNodes
| AudoDeleteFreeNodes | ChangeConfig | BalanceMasters | BumpEpoch | RemoveProxy
| MigrateSlots | MigrateSlotsToScaleDown | AutoScaleNodeNumber | AddFailure
| CommitMigration | ReplaceFailedNode.

Inductive Response :=
| RVersion
| RBrokerConfig
| RFailures (addresses : list string)
| REpoch (epoch : N)
| RQuery (route : GetRoute) (payload : nat)
(** The handler panicked: no response is sent. *)
| RPanic.

Section Service.
Variable config : MemBrokerConfig.
(** [MetaStorage::store]: the persistence sink. *)
Variable meta_storage_store : MetaStore -> Result unit MetaSyncError.
(** The [&self] queries of [MetaStore] behind the read-only routes, with
    their JSON payload, and [MetaStore::check]. *)
Variable query : GetRoute -> MetaStore -> nat.
Variable check : MetaStore -> bool.
(** [Utc::now()], in seconds. *)
Variable now : nat.

(** [MemBrokerService::update_meta_file] *)
Definition update_meta_file : M (Result unit MetaSyncError) :=
  fun s => (meta_storage_store s, s, [PersistFile]).

(** [MemBrokerService::trigger_update] *)
Definition trigger_update : M (Result unit MetaSyncError) :=
  if auto_update_meta_file config then
    r <- update_meta_file ;;
    match r with
    | Err e => ret (Err e)
    | Ok _ => ret (Ok tt)
    end
  else ret (Ok tt).

(** Handlers of the shape [let res = state.op(..)?;
    state.trigger_update().await?; Ok(res)]. *)
Definition op_then_sync {A} (op : M (Result A MetaStoreError))
  : M (Result A MetaStoreError) :=
  res <- op ;;
  match res with
  | Err e => ret (Err e)
  | Ok r =>
      sync_res <- trigger_update ;;
      match sync_res with
      | Err e => ret (Err (from_sync_error e))
      | Ok _ => ret (Ok r)
      end
  end.

(** Handlers of the shape [let res = state.op(..); let sync_res =
    state.trigger_update().await; let res = res?; sync_res?; Ok(res)]. *)
Definition op_and_sync {A} (op : M (Result A MetaStoreError))
  : M (Result A MetaStoreError) :=
  res <- op ;;
  sync_res <- trigger_update ;;
  match res with
  | Err e => ret (Err e)
  | Ok r =>
      match sync_res with
      | Err e => ret (Err (from_sync_error e))
      | Ok _ => ret (Ok r)
      end
  end.

(** The handler of a mutating route around its store-level operation
    [op] (the [MemBrokerService] method it calls). *)
Definition mutating_handler {A} (r : MutRoute) (op : M (Result A MetaStoreError))
  : M (Result A MetaStoreError) :=
  match r with
  | BalanceMasters | ReplaceFailedNode => op_and_sync op
  | _ => op_then_sync op
  end.

(** [MemBrokerService::get_failures]: [chrono::Duration::seconds(
    self.config.failure_ttl as i64)], which may panic ([None]) before the
    write lock is taken, then [MetaStore::get_failures] under the write
    lock. *)
Definition get_failures : M (option (list string)) :=
  match duration_seconds (u64_as_i64 (failure_ttl config)) with
  | None => ret None
  | Some failure_ttl =>
      write_store (fun s =>
        let '(addresses, s') := store_get_failures now failure_ttl (failure_quorum config) s in
        (Some addresses, s'))
  end.

(** The handler of a GET route. *)
Definition get_handler (r : GetRoute) : M Response :=
  match r with
  | GetVersion => ret RVersion
  | GetBrokerConfig => ret RBrokerConfig
  | GetFailures =>
      r <- get_failures ;;
      match r with
      | Some addresses => ret (RFailures addresses)
      | None => ret RPanic
      end
  | GetEpoch => epoch <- read_store global_epoch ;; ret (REpoch epoch)
  | GetAllMetadata | GetClusterNames | GetClusterByName | GetProxyAddresses
  | GetProxyByAddress | GetFailedProxies | GetClusterInfoByName =>
      payload <- read_store (query r) ;; ret (RQuery r payload)
  end.

(** A GET request through the [wrap_fn] middleware of [configure_app]:
    in debug mode the store is checked after the handler; a panic of the
    handler unwinds through [fut.await], so nothing after it runs. *)
Definition serve_get (r : GetRoute) : M Response :=
  resp <- get_handler r ;;
  match resp with
  | RPanic => ret RPanic
  | _ =>
      _ <- (if debug config then _ <- read_store check ;; ret tt else ret tt) ;;
      ret resp
  end.

(** [MemBrokerService::recover_epoch], the handler of PUT /epoch/recovery;
    [reply] gives the proxies' answers to the epoch query. *)
Definition recover_epoch (reply : string -> option N)
  : M (Result (list string) MetaStoreError) :=
  proxy_addresses <- read_store get_proxies ;;
  let r := fetch_max_epoch reply proxy_addresses in
  _ <- write_store (store_recover_epoch (u64_add (max_epoch r) 1)) ;;
  ret (Ok (failed_addresses r)).
End Service.

(** [self.scale_lock.lock().ok_or_else(|| MetaStoreError::NodeNumberChanging)?]:
    [guard] is what [AtomicLock::lock] gives, [None] while another scaling
    operation holds the lock; the guard is dropped when the method returns. *)
Definition with_scale_lock {A} (guard : option unit) (body : M (Result A MetaStoreError))
  : M (Result A MetaStoreError) :=
  match guard with
  | None => ret (Err NodeNumberChanging)
  | Some _ => body
  end.

(** [auto_add_node], [auto_scale_up_nodes], [audo_delete_free_nodes],
    [migrate_slots] and [migrate_slots_to_scale_down]: the scale lock, then
    one store-level call [f] under the write lock. *)
Definition locked_store_op {A} (guard : option unit)
    (f : MetaStore -> Result A MetaStoreError * MetaStore) : M (Result A MetaStoreError) :=
  with_scale_lock guard (write_store f).

Section Scaling.
(** [ScaleOp] and the two phases of [MetaStore] behind
    [auto_scale_node_number] (store.rs is not in the sources). *)
Variable ScaleOp : Type.
(** [if let ScaleOp::NoOp | ScaleOp::ScaleDown = scale_op] *)
Variable is_noop_or_scale_down : ScaleOp -> bool.
(** [MetaStore::auto_change_node_number(cluster_name, new_node_num)]: the
    scale operation, the proxies to wait for and the cluster epoch. *)
Variable auto_change_node_number :
  string -> nat -> MetaStore -> Result (ScaleOp * list string * N) MetaStoreError * MetaStore.
(** [MetaStore::auto_scale_out_node_number(cluster_name, new_node_num)] *)
Variable auto_scale_out_node_number :
  string -> nat -> MetaStore -> Result unit MetaStoreError * MetaStore.
(** [wait_for_proxy_epoch(proxy_addresses, cluster_epoch)]: [Err] with a
    proxy that did not reach the epoch. *)
Variable wait_for_proxy_epoch : list string -> N -> Result unit string.

(** [MemBrokerService::auto_scale_node_number] *)
Definition auto_scale_node_number (guard : option unit) (cluster_name : string)
    (new_node_num : nat) : M (Result unit MetaStoreError) :=
  with_scale_lock guard (
    r <- write_store (auto_change_node_number cluster_name new_node_num) ;;
    match r with
    | Err e => ret (Err e)
    | Ok (scale_op, proxy_addresses, cluster_epoch) =>
        if is_noop_or_scale_down scale_op then ret (Ok tt)
        else
          match wait_for_proxy_epoch proxy_addresses cluster_epoch with
          | Err _failed_proxy => ret (Err ProxyNotSync)
          | Ok _ => write_store (auto_scale_out_node_number cluster_name new_node_num)
          end
    end).
End Scaling.

Local Open Scope string_scope.

(** A broker restarted with the stale global epoch 10: three proxies, the
    epoch of cluster ["mydb"], and two reports that [127.0.0.1:6003] failed,
    made at times 100 and 20. *)
Definition sample_store : MetaStore := {|
  global_epoch := 10; cluster_epochs := [("mydb", 8%N)];
  all_proxies := ["127.0.0.1:6001"; "127.0.0.1:6002"; "127.0.0.1:6003"];
  failures := [("127.0.0.1:6003", [("127.0.0.1:6001", 100); ("127.0.0.1:6002", 20)])];
  enable_ordered_proxy := false |}.

(** The proxies' answers to the epoch query: 25, 20, and no answer. *)
Definition sample_reply (addr : string) : option N :=
  if String.eqb addr "127.0.0.1:6001" then Some 25%N
  else if String.eqb addr "127.0.0.1:6002" then Some 20%N
  else None.

(** Every proxy answers with the largest [u64]. *)
Definition sample_max_reply (_ : string) : option N := Some (2 ^ 64 - 1)%N.

Definition sample_config : MemBrokerConfig := {|
  failure_ttl := 60; failure_quorum := 1; auto_update_meta_file := true; debug := false |}.

(** A configuration with the given TTL, quorum 1, persistence on, debug
    off. *)
Definition sample_ttl_config (ttl : N) : MemBrokerConfig := {|
  failure_ttl := ttl; failure_quorum := 1; auto_update_meta_file := true; debug := false |}.

(** A store-level mutation: bump the global epoch under the write lock. *)
Definition sample_bump_epoch : M (Result unit MetaStoreError) :=
  write_store (fun s => (Ok tt, {| global_epoch := global_epoch s + 1;
                                   cluster_epochs := cluster_epochs s;
                                   all_proxies := all_proxies s; failures := failures s;
                                   enable_ordered_proxy := enable_ordered_proxy s |})).

End Broker.

(** * Proofs *)

Module ManagerFacts.
Import Manager.

Section HashMapFacts.
Context {K V : Type} `{EqDec K}.

Lemma hm_get_filter_other (k k' : K) (m : HashMap K V) :
  k' <> k ->
  hm_get k' (filter (fun kv => if eq_dec k (fst kv) then false else true) m) = hm_get k' m.
Proof.
  intros Hne; induction m as [|[k0 v0] rest IH]; simpl; [reflexivity |].
  destruct (eq_dec k k0) as [<-|Hk]; simpl.
  - destruct (eq_dec k' k); [congruence | exact IH].
  - destruct (eq_dec k' k0); [reflexivity | exact IH].
Qed.

Lemma hm_get_insert (k k' : K) (v : V) (m : HashMap K V) :
  hm_get k' (hm_insert k v m) = if eq_dec k' k then Some v else hm_get k' m.
Proof.
  unfold hm_insert; simpl.
  destruct (eq_dec k' k) as [->|Hne]; [reflexivity |].
  apply hm_get_filter_other; assumption.
Qed.

Lemma In_hm_insert (k k' : K) (v v' : V) (m : HashMap K V) :
  In (k', v') (hm_insert k v m) -> (k', v') = (k, v) \/ In (k', v') m.
Proof.
  unfold hm_insert; simpl; intros [Heq | Hin]; [left; congruence |].
  right; apply filter_In in Hin; tauto.
Qed.

Lemma hm_get_In (k : K) (m : HashMap K V) v : hm_get k m = Some v -> In (k, v) m.
Proof.
  induction m as [|[k0 v0] rest IH]; simpl; [discriminate |].
  destruct (eq_dec k k0) as [->|]; [injection 1 as ->; left; reflexivity | intros; right; auto].
Qed.

Lemma hm_get_some_nonempty (k : K) (m : HashMap K V) v :
  hm_get k m = Some v -> hm_is_empty m = false.
Proof. destruct m; [discriminate | reflexivity]. Qed.
End HashMapFacts.

Lemma fold_left_inv {A B} (P : A -> Prop) (f : A -> B -> A) (l : list B) (a : A) :
  P a -> (forall a b, In b l -> P a -> P (f a b)) -> P (fold_left f l a).
Proof.
  revert a; induction l as [|b l IH]; intros a Ha Hstep; simpl; [exact Ha |].
  apply IH; [apply Hstep; simpl; auto | intros; apply Hstep; simpl; auto].
Qed.

Lemma get_task_entry_insert cn k v m cn' k' :
  get_task (entry_insert cn k v m) cn' k' =
  if eq_dec cn' cn then (if eq_dec k' k then Some v else get_task m cn' k')
  else get_task m cn' k'.
Proof.
  unfold entry_insert, get_task; rewrite hm_get_insert.
  destruct (eq_dec cn' cn) as [->|Hne]; [| reflexivity].
  rewrite hm_get_insert; destruct (eq_dec k' k); [reflexivity |].
  destruct (hm_get cn m); reflexivity.
Qed.

Lemma get_task_In tm cn k t :
  get_task tm cn k = Some t -> exists tasks, In (cn, tasks) tm /\ In (k, t) tasks.
Proof.
  unfold get_task; destruct (hm_get cn tm) as [tasks|] eqn:E; [| discriminate].
  intros H; exists tasks; split; apply hm_get_In; assumption.
Qed.

Lemma already_kept_get_task mc cn k :
  already_kept mc cn k = match get_task mc cn k with Some _ => true | None => false end.
Proof. unfold already_kept, get_task, hm_contains_key; destruct (hm_get cn mc); reflexivity. Qed.

Lemma entry_insert_nonempty cn k v mc :
  clusters_nonempty mc -> clusters_nonempty (entry_insert cn k v mc).
Proof.
  unfold clusters_nonempty, entry_insert; intros Hmc cn' tasks Hin.
  apply In_hm_insert in Hin as [Heq | Hin].
  - inversion Heq; subst; unfold hm_insert; discriminate.
  - exact (Hmc _ _ Hin).
Qed.

Lemma keep_old_nonempty old cn mc sr :
  clusters_nonempty mc -> clusters_nonempty (keep_old old cn mc sr).
Proof.
  intros Hmc; unfold keep_old.
  destruct (tag sr); [| | exact Hmc];
    destruct (get_task old cn _); auto using entry_insert_nonempty.
Qed.

Lemma spawn_new_nonempty cn (st : SpawnState) sr :
  clusters_nonempty (fst (fst st)) -> clusters_nonempty (fst (fst (spawn_new cn st sr))).
Proof.
  destruct st as [[mc nts] ptr]; simpl; intros Hmc; unfold spawn_new.
  destruct (tag sr); [| | exact Hmc];
    (destruct (already_kept _ _ _); [exact Hmc | simpl; auto using entry_insert_nonempty]).
Qed.

Lemma update_nonempty self local_cluster_map next_ptr :
  clusters_nonempty (task_map (fst (update_from_old_task_map self local_cluster_map next_ptr))).
Proof.
  unfold update_from_old_task_map.
  match goal with
  | |- context [fold_left ?f2 local_cluster_map (fold_left ?f1 local_cluster_map [], [], next_ptr)] =>
      set (mc1 := fold_left f1 local_cluster_map []);
      assert (H1 : clusters_nonempty mc1);
      [| set (st := fold_left f2 local_cluster_map (mc1, [], next_ptr));
         assert (H2 : clusters_nonempty (fst (fst st)))]
  end.
  - unfold mc1; apply fold_left_inv; [intros ? ? [] |].
    intros mc [cn node_map] _ Hmc; apply fold_left_inv; [exact Hmc |].
    intros mc' [node srs] _ Hmc'; apply fold_left_inv; [exact Hmc' |].
    intros mc'' sr _ Hmc''; apply keep_old_nonempty; exact Hmc''.
  - unfold st; apply fold_left_inv; [exact H1 |].
    intros s [cn node_map] _ Hs; apply fold_left_inv; [exact Hs |].
    intros s' [node srs] _ Hs'; apply fold_left_inv; [exact Hs' |].
    intros s'' sr _ Hs''; apply spawn_new_nonempty; exact Hs''.
  - destruct st as [[mc nts] ptr]; exact H2.
Qed.

(** C9: every map built by [MigrationMap::empty] or by
    [update_from_old_task_map] has its [empty] flag set exactly when its task
    map has no cluster, and no cluster maps to an empty set of tasks; so on
    such a map the fast path of [send] (flag set) is taken only when there is
    no migration task at all. *)
Theorem migration_map_wf :
  wf_map empty_map /\
  (forall self local_cluster_map next_ptr,
      wf_map (fst (update_from_old_task_map self local_cluster_map next_ptr))) /\
  (forall m, wf_map m -> empty m = true -> task_map m = []).
Proof.
  split; [| split].
  - split; [reflexivity | intros ? ? []].
  - intros self lcm ptr; split; [| apply update_nonempty].
    unfold update_from_old_task_map.
    destruct (fold_left _ lcm _) as [[mc nts] p]; reflexivity.
  - intros [e tm] [Hempty _] Htrue; simpl in *; subst e.
    destruct tm; [reflexivity | discriminate].
Qed.

Section Routing.
Context `{TaskVTable}.

(** C2: [handle_switch] answers [PeerMigrating] when the task registered
    under [switch_arg.meta] is a migrating task, turns the importing task's
    [NotReady] into [SwitchError::NotReady], and answers [TaskNotFound] when
    nothing is registered under [switch_arg.meta] (or its cluster). *)
Theorem handle_switch_replies (m : MigrationMap) (switch_arg : SwitchArg) (sub_cmd : MgrSubCmd) :
  (forall mgr_task p,
      get_task (task_map m) (cluster_name (meta switch_arg)) (meta switch_arg) = Some mgr_task ->
      task mgr_task = Left p ->
      handle_switch m switch_arg sub_cmd = Err SwitchError.PeerMigrating) /\
  (forall mgr_task p,
      get_task (task_map m) (cluster_name (meta switch_arg)) (meta switch_arg) = Some mgr_task ->
      task mgr_task = Right p ->
      importing_handle_switch p switch_arg sub_cmd = Err MigrationError.NotReady ->
      handle_switch m switch_arg sub_cmd = Err SwitchError.NotReady) /\
  (get_task (task_map m) (cluster_name (meta switch_arg)) (meta switch_arg) = None ->
   handle_switch m switch_arg sub_cmd = Err SwitchError.TaskNotFound).
Proof.
  unfold handle_switch, get_task.
  destruct (hm_get (cluster_name (meta switch_arg)) (task_map m)) as [tasks|];
    [| split; [discriminate | split; [discriminate | reflexivity]]].
  destruct (hm_get (meta switch_arg) tasks) as [mt|];
    [| split; [discriminate | split; [discriminate | reflexivity]]].
  split; [| split]; [intros mgr_task p [= <-] Ht | intros mgr_task p [= <-] Ht Hsw | discriminate].
  - rewrite Ht; reflexivity.
  - rewrite Ht, Hsw; reflexivity.
Qed.

(** C4: on a map whose [empty] flag is set, [send] gives the command back
    in [SlotNotFound] (not blocking); on a well-formed map (C9), a command
    without a key whose cluster has tasks gets the ["missing key"] error
    response and [send] returns [MissingKey]. *)
Theorem send_fast_path_and_missing_key (m : MigrationMap) (cmd_task : CmdTask) :
  (empty m = true ->
   send m cmd_task =
     (Err (SlotNotFound {| bh_task := log_event SentToMigrationBackend cmd_task;
                           bh_hint := NotBlocking |}),
      log_event SentToMigrationBackend cmd_task)) /\
  (wf_map m -> get_slot cmd_task = None ->
   hm_get (get_cluster_name cmd_task) (task_map m) <> None ->
   send m cmd_task =
     (Err MissingKey,
      set_resp_result (RespError "missing key") (log_event SentToMigrationBackend cmd_task))).
Proof.
  split.
  - intros He; unfold send; rewrite He; reflexivity.
  - intros [Hwf _] Hslot Hcl; unfold send.
    destruct (hm_get (get_cluster_name cmd_task) (task_map m)) as [tasks|] eqn:Hget;
      [| congruence].
    rewrite Hwf, (hm_get_some_nonempty _ _ _ Hget).
    unfold send_helper; simpl.
    change (cmd_cluster_name cmd_task) with (get_cluster_name cmd_task); rewrite Hget.
    change (cmd_slot cmd_task) with (get_slot cmd_task); rewrite Hslot; reflexivity.
Qed.

Lemma send_sync_to_tasks_none (ts : list MgrTask) slot cmd_task :
  (forall mgr_task p, In mgr_task ts -> task mgr_task = Left p ->
                      migrating_contains_slot p slot = false) ->
  send_sync_to_tasks ts slot cmd_task = None.
Proof.
  induction ts as [|mt rest IH]; intros Hno; simpl; [reflexivity |].
  destruct (task mt) as [p|p] eqn:Ht.
  - rewrite (Hno mt p (or_introl eq_refl) Ht); apply IH; intros; eapply Hno; simpl; eauto.
  - apply IH; intros; eapply Hno; simpl; eauto.
Qed.

(** C10: [send_sync_task] delegates only to migrating tasks: a command with
    slot [slot] that no migrating task of its cluster contains comes back in
    [SlotNotFound], even when an importing task contains the slot. *)
Theorem send_sync_task_only_migrating (m : MigrationMap) (cmd_task : CmdTask) (slot : nat) :
  get_slot cmd_task = Some slot ->
  (forall tasks mgr_task p,
      hm_get (get_cluster_name cmd_task) (task_map m) = Some tasks ->
      In mgr_task (hm_values tasks) -> task mgr_task = Left p ->
      migrating_contains_slot p slot = false) ->
  send_sync_task m cmd_task =
    (Err (SlotNotFound {| bh_task := log_event SentToMigrationBackend cmd_task;
                          bh_hint := NotBlocking |}),
     log_event SentToMigrationBackend cmd_task).
Proof.
  intros Hslot Hno; unfold send_sync_task.
  destruct (empty m); [reflexivity |].
  simpl; change (cmd_cluster_name cmd_task) with (get_cluster_name cmd_task).
  destruct (hm_get (get_cluster_name cmd_task) (task_map m)) as [tasks|] eqn:Hget;
    [| reflexivity].
  change (cmd_slot cmd_task) with (get_slot cmd_task); rewrite Hslot.
  rewrite send_sync_to_tasks_none; [reflexivity |].
  intros; eapply Hno; eauto.
Qed.
End Routing.

(** The nested loops over clusters, nodes and slot ranges are one loop over
    [flat_ranges]. *)
Lemma fold_left_map_pair {A} (g : ClusterName -> A -> SlotRange -> A) cn srs a :
  fold_left (g cn) srs a =
  fold_left (fun acc '(cn', sr) => g cn' acc sr) (map (fun sr => (cn, sr)) srs) a.
Proof. revert a; induction srs as [|sr srs IH]; intros a; simpl; auto. Qed.

Lemma fold_nested_flat {A} (g : ClusterName -> A -> SlotRange -> A)
    (local_cluster_map : ProxyClusterMap) (a : A) :
  fold_left (fun acc '(cluster_name, node_map) =>
      fold_left (fun acc '(_node, slot_ranges) =>
        fold_left (g cluster_name) slot_ranges acc) node_map acc) local_cluster_map a =
  fold_left (fun acc '(cn, sr) => g cn acc sr) (flat_ranges local_cluster_map) a.
Proof.
  revert a; induction local_cluster_map as [|[cn node_map] rest IH]; intros a;
    [reflexivity |].
  unfold flat_ranges in *; simpl; rewrite fold_left_app, <- IH; f_equal.
  clear IH; revert a; induction node_map as [|[node srs] nrest IHn]; intros a;
    [reflexivity |].
  simpl; rewrite fold_left_app, <- IHn, fold_left_map_pair; reflexivity.
Qed.

Lemma entry_insert_same cn k v mc : get_task (entry_insert cn k v mc) cn k = Some v.
Proof.
  rewrite get_task_entry_insert.
  destruct (eq_dec cn cn); [| congruence]; destruct (eq_dec k k); congruence.
Qed.

Lemma entry_insert_keeps cn0 k0 v mc cn k t :
  get_task mc cn0 k0 = None -> get_task mc cn k = Some t ->
  get_task (entry_insert cn0 k0 v mc) cn k = Some t.
Proof.
  intros Habs Hk; rewrite get_task_entry_insert.
  destruct (eq_dec cn cn0) as [->|]; [| exact Hk].
  destruct (eq_dec k k0) as [->|]; [congruence | exact Hk].
Qed.

Lemma keep_old_spec old cn0 mc sr0 cn k t :
  (forall cn k t, get_task mc cn k = Some t -> get_task old cn k = Some t) ->
  get_task (keep_old old cn0 mc sr0) cn k = Some t <->
  get_task mc cn k = Some t \/
  ((cn = cn0 /\ is_tagged sr0 = true /\ k = task_meta cn0 sr0) /\ get_task old cn k = Some t).
Proof.
  intros Hmc; unfold keep_old, is_tagged; cbv zeta; fold (task_meta cn0 sr0).
  destruct (tag sr0) eqn:Htag.
  3: split; [auto | intros [H | [[_ [H _]] _]]; [exact H | discriminate]].
  all: destruct (get_task old cn0 (task_meta cn0 sr0)) as [v|] eqn:Hold.
  1, 3: rewrite get_task_entry_insert; destruct (eq_dec cn cn0) as [->|Hcn];
        [destruct (eq_dec k (task_meta cn0 sr0)) as [->|Hk] |].
  all: split; [intros H | intros [H | [[Hc [_ Hk']] H]]]; subst;
       try (injection H as <-; right; auto); try tauto; try congruence;
       try (apply Hmc in H; congruence).
Qed.

Lemma pass1_spec old (L : list (ClusterName * SlotRange)) mc :
  (forall cn k t, get_task mc cn k = Some t -> get_task old cn k = Some t) ->
  forall cn k t,
    get_task (fold_left (fun acc '(cn, sr) => keep_old old cn acc sr) L mc) cn k = Some t <->
    get_task mc cn k = Some t \/ (key_in L cn k /\ get_task old cn k = Some t).
Proof.
  revert mc; induction L as [|[cn0 sr0] L IH]; intros mc Hmc cn k t; simpl.
  - split; [auto | intros [H | [[sr [[] _]] _]]; exact H].
  - assert (Hmc' : forall cn k t, get_task (keep_old old cn0 mc sr0) cn k = Some t ->
                                  get_task old cn k = Some t).
    { intros cn' k' t' H; apply keep_old_spec in H; [| exact Hmc]; destruct H as [H | [_ H]];
        [apply Hmc |]; exact H. }
    rewrite (IH _ Hmc'), keep_old_spec by exact Hmc.
    unfold key_in; split.
    + intros [[H | [[-> [Ht ->]] H]] | [[sr [Hin [Ht ->]]] H]]; [tauto | |].
      * right; split; [exists sr0; simpl; auto | exact H].
      * right; split; [exists sr; simpl; auto | exact H].
    + intros [H | [[sr [[Heq | Hin] [Ht ->]]] H]]; [tauto | |].
      * inversion Heq; subst; left; right; auto.
      * right; split; [exists sr; auto | exact H].
Qed.

Lemma describes_tagged nt cn sr : new_task_describes nt cn sr -> is_tagged sr = true.
Proof.
  unfold new_task_describes, is_tagged; intros [_ [_ H]].
  destruct (tag sr); [reflexivity | reflexivity | destruct (nt_task nt); contradiction].
Qed.

Lemma spawn_new_mono cn0 (st : SpawnState) sr0 cn k t :
  get_task (fst (fst st)) cn k = Some t ->
  get_task (fst (fst (spawn_new cn0 st sr0))) cn k = Some t.
Proof.
  destruct st as [[mc nts] ptr]; simpl; intros H; unfold spawn_new.
  destruct (tag sr0); [| | exact H];
    (rewrite already_kept_get_task;
     destruct (get_task mc cn0 _) eqn:Habs; [exact H | simpl; apply entry_insert_keeps; auto]).
Qed.

Lemma spawn_new_present cn0 (st : SpawnState) sr0 :
  is_tagged sr0 = true ->
  get_task (fst (fst (spawn_new cn0 st sr0))) cn0 (task_meta cn0 sr0) <> None.
Proof.
  destruct st as [[mc nts] ptr]; unfold is_tagged, spawn_new; intros Ht.
  destruct (tag sr0); [| | discriminate];
    (rewrite already_kept_get_task; fold (task_meta cn0 sr0);
     destruct (get_task mc cn0 (task_meta cn0 sr0)) eqn:Habs;
     [simpl; congruence | simpl; rewrite entry_insert_same; discriminate]).
Qed.

Lemma pass2_mono (L : list (ClusterName * SlotRange)) st cn k t :
  get_task (fst (fst st)) cn k = Some t ->
  get_task (fst (fst (fold_left (fun st '(cn, sr) => spawn_new cn st sr) L st))) cn k = Some t.
Proof.
  revert st; induction L as [|[cn0 sr0] L IH]; intros st H; simpl; [exact H |].
  apply IH, spawn_new_mono, H.
Qed.

Lemma pass2_present (L : list (ClusterName * SlotRange)) st cn sr :
  In (cn, sr) L -> is_tagged sr = true ->
  get_task (fst (fst (fold_left (fun st '(cn, sr) => spawn_new cn st sr) L st))) cn
    (task_meta cn sr) <> None.
Proof.
  revert st; induction L as [|[cn0 sr0] L IH]; intros st Hin Ht; simpl; [destruct Hin |].
  destruct Hin as [Heq | Hin]; [inversion Heq; subst | apply IH; assumption].
  destruct (get_task (fst (fst (spawn_new cn st sr))) cn (task_meta cn sr)) as [t|] eqn:Hp;
    [| exfalso; exact (spawn_new_present cn st sr Ht Hp)].
  rewrite (pass2_mono L _ _ _ _ Hp); discriminate.
Qed.

Lemma pass2_inv_step L mc1 next_ptr st cn0 sr0 :
  In (cn0, sr0) L -> pass2_inv L mc1 next_ptr st ->
  pass2_inv L mc1 next_ptr (spawn_new cn0 st sr0).
Proof.
  destruct st as [[mc nts] ptr]; intros Hin [Hptr [Hmono [Hk Hnt]]].
  unfold spawn_new.
  destruct (tag sr0) as [meta0|meta0|] eqn:Htag; [| | repeat split; assumption];
  rewrite already_kept_get_task; fold (task_meta cn0 sr0);
  (destruct (get_task mc cn0 (task_meta cn0 sr0)) eqn:Habs; [repeat split; assumption |]);
  (assert (Habs1 : get_task mc1 cn0 (task_meta cn0 sr0) = None)
     by (destruct (get_task mc1 cn0 (task_meta cn0 sr0)) eqn:E; [apply Hmono in E; congruence | reflexivity]));
  (split; [lia | split; [| split]]).
  1, 4: intros cn k t H; apply entry_insert_keeps; [exact Habs | apply Hmono, H].
  1, 3: intros cn k t H; rewrite get_task_entry_insert in H;
        destruct (eq_dec cn cn0) as [->|Hcn];
        [destruct (eq_dec k (task_meta cn0 sr0)) as [->|Hkk] |];
        [inversion H; subst; right; eexists sr0, _; split; [reflexivity |];
         split; [exact Hin |]; split; [apply in_or_app; right; left; reflexivity |];
         split; [reflexivity |]; split;
         [unfold new_task_describes; simpl; rewrite Htag; auto | simpl; lia]
        | | ];
        (destruct (Hk _ _ _ H) as [H1 | [sr [nt [H1 [H2 [H3 [H4 [H5 H6]]]]]]]];
         [left; exact H1 | right; exists sr, nt; split; [exact H1 |]; split; [exact H2 |];
          split; [apply in_or_app; left; exact H3 |]; split; [exact H4 |];
          split; [exact H5 | lia]]).
  all: intros nt Hin'; apply in_app_or in Hin' as [Hin' | [<- | []]];
       [destruct (Hnt nt Hin') as [sr [t [H1 [H2 [H3 [H4 [H5 H6]]]]]]];
        exists sr, t; split; [exact H1 |]; split; [exact H2 |];
        split; [apply entry_insert_keeps; auto |]; split; [exact H4 |];
        split; [exact H5 | lia]
       | simpl; exists sr0; eexists; split; [exact Hin |]; split; [exact Habs1 |];
         split; [apply entry_insert_same |]; split; [reflexivity |];
         split; [unfold new_task_describes; simpl; rewrite Htag; auto | simpl; lia]].
Qed.

(** C1: let every task of the old map live at an address below [next_ptr].
    After [update_from_old_task_map] (1) every tagged range of the new
    cluster map whose [MigrationTaskMeta] is registered in the old map keeps
    that very task record; (2) every tagged range with no old entry gets a
    fresh task (allocated at [next_ptr] or later) that a [NewTask] of the
    returned list describes; (3) every returned [NewTask] is for such a
    range, and never for an old task; (4) every task of the returned map is
    registered under a tagged range of the new cluster map, so the tasks of
    the old map whose meta is absent from it are dropped. *)
Theorem update_from_old_task_map_spec (self : MigrationMap)
    (local_cluster_map : ProxyClusterMap) (next_ptr : Ptr) :
  (forall cn k t, get_task (task_map self) cn k = Some t -> task_ptr_of (task t) < next_ptr) ->
  forall m' new_tasks,
  update_from_old_task_map self local_cluster_map next_ptr = (m', new_tasks) ->
  (forall cn sr t,
      In (cn, sr) (flat_ranges local_cluster_map) -> is_tagged sr = true ->
      get_task (task_map self) cn (task_meta cn sr) = Some t ->
      get_task (task_map m') cn (task_meta cn sr) = Some t) /\
  (forall cn sr,
      In (cn, sr) (flat_ranges local_cluster_map) -> is_tagged sr = true ->
      get_task (task_map self) cn (task_meta cn sr) = None ->
      exists t nt, get_task (task_map m') cn (task_meta cn sr) = Some t /\
        In nt new_tasks /\ nt_task nt = task t /\ new_task_describes nt cn sr /\
        next_ptr <= task_ptr_of (task t)) /\
  (forall nt, In nt new_tasks ->
      (forall cn k t, get_task (task_map self) cn k = Some t -> nt_task nt <> task t) /\
      exists sr, In (nt_cluster_name nt, sr) (flat_ranges local_cluster_map) /\
        get_task (task_map self) (nt_cluster_name nt) (task_meta (nt_cluster_name nt) sr) = None /\
        new_task_describes nt (nt_cluster_name nt) sr) /\
  (forall cn k t, get_task (task_map m') cn k = Some t ->
      exists sr, k = task_meta cn sr /\ In (cn, sr) (flat_ranges local_cluster_map) /\
        is_tagged sr = true).
Proof.
  intros Hold m' new_tasks Hupd.
  unfold update_from_old_task_map in Hupd; cbv zeta in Hupd.
  rewrite (fold_nested_flat (keep_old (task_map self))) in Hupd.
  rewrite (fold_nested_flat spawn_new) in Hupd.
  set (L := flat_ranges local_cluster_map) in *.
  set (mc1 := fold_left (fun acc '(cn, sr) => keep_old (task_map self) cn acc sr) L []) in *.
  assert (Hmc1 : forall cn k t, get_task mc1 cn k = Some t <->
                   key_in L cn k /\ get_task (task_map self) cn k = Some t).
  { intros cn k t; unfold mc1; rewrite pass1_spec; [| intros ? ? ? H; cbn in H; discriminate H].
    cbn; split; [intros [H | H]; [discriminate H | exact H] | auto]. }
  assert (Hinv : pass2_inv L mc1 next_ptr
                   (fold_left (fun st '(cn, sr) => spawn_new cn st sr) L (mc1, [], next_ptr))).
  { apply (fold_left_inv (pass2_inv L mc1 next_ptr)).
    - hnf; split; [lia |]; split; [auto |]; split; [auto | intros _ []].
    - intros st [cn sr] Hin Hst; apply pass2_inv_step; assumption. }
  pose proof (fun cn sr => pass2_present L (mc1, [], next_ptr) cn sr) as Hpres.
  destruct (fold_left (fun st '(cn, sr) => spawn_new cn st sr) L (mc1, [], next_ptr))
    as [[mc nts] ptr] eqn:Hfold.
  cbn in Hupd; injection Hupd as <- <-; cbn [task_map fst] in *.
  unfold pass2_inv in Hinv; destruct Hinv as [Hptr [Hmono [Hk Hnt]]].
  assert (Hkey : forall cn sr, In (cn, sr) L -> is_tagged sr = true ->
                   key_in L cn (task_meta cn sr)) by (intros cn sr ? ?; exists sr; auto).
  split; [| split; [| split]].
  - intros cn sr t Hin Ht Hst; apply Hmono, Hmc1; auto.
  - intros cn sr Hin Ht Hst.
    destruct (get_task mc cn (task_meta cn sr)) as [t|] eqn:Hg;
      [| exfalso; exact (Hpres cn sr Hin Ht Hg)].
    destruct (Hk _ _ _ Hg) as [H1 | [sr' [nt [Hkk [_ [H3 [H4 [H5 H6]]]]]]]].
    + apply Hmc1 in H1; destruct H1 as [_ H1]; congruence.
    + unfold task_meta in Hkk; injection Hkk as <-.
      exists t, nt; split; [reflexivity |]; repeat (split; [assumption |]); lia.
  - intros nt Hin; destruct (Hnt nt Hin) as [sr [t [H1 [H2 [H3 [H4 [H5 H6]]]]]]]; split.
    + intros cn k t' Ht' Heq; apply Hold in Ht'; rewrite <- Heq in Ht'; lia.
    + exists sr; split; [exact H1 |]; split; [| exact H5].
      destruct (get_task (task_map self) (nt_cluster_name nt)
                  (task_meta (nt_cluster_name nt) sr)) as [t'|] eqn:Hs; [| reflexivity].
      assert (get_task mc1 (nt_cluster_name nt) (task_meta (nt_cluster_name nt) sr) = Some t')
        by (apply Hmc1; split; [apply Hkey; [exact H1 | exact (describes_tagged _ _ _ H5)] | exact Hs]).
      congruence.
  - intros cn k t Hg; destruct (Hk _ _ _ Hg) as [H1 | [sr [nt [-> [H2 [_ [_ [H5 _]]]]]]]].
    + apply Hmc1 in H1; destruct H1 as [[sr [Hin [Ht ->]]] _]; exists sr; auto.
    + exists sr; split; [reflexivity |]; split; [exact H2 | exact (describes_tagged _ _ _ H5)].
Qed.

End ManagerFacts.

(** * Runs of the [MigrationMap] theorems on the sample data *)

Module ManagerWitnesses.
Import Manager ManagerFacts.
Local Open Scope string_scope.

Lemma update_from_old_task_map_spec_witness :
  (forall cn k t, get_task (task_map sample_map) cn k = Some t -> task_ptr_of (task t) < 10) /\
  get_task (task_map (fst (update_from_old_task_map sample_map sample_cluster_map 10))) "mydb"
    (task_meta "mydb" sample_migrating_range) = Some {| mgr_ptr := 1; task := Left 0 |} /\
  (exists t nt,
     get_task (task_map (fst (update_from_old_task_map sample_map sample_cluster_map 10))) "mydb"
       (task_meta "mydb" sample_new_importing_range) = Some t /\
     In nt (snd (update_from_old_task_map sample_map sample_cluster_map 10)) /\
     nt_task nt = task t).
Proof.
  assert (Hold : forall cn k t, get_task (task_map sample_map) cn k = Some t ->
                                task_ptr_of (task t) < 10).
  { intros cn k t H; apply get_task_In in H as [tasks [H1 H2]]; simpl in H1.
    destruct H1 as [E | []]; inversion E; subst; simpl in H2.
    destruct H2 as [E' | [E' | []]]; inversion E'; subst; simpl; lia. }
  destruct (update_from_old_task_map_spec sample_map sample_cluster_map 10 Hold
              (fst (update_from_old_task_map sample_map sample_cluster_map 10))
              (snd (update_from_old_task_map sample_map sample_cluster_map 10)) eq_refl)
    as [H1 [H2 _]].
  split; [exact Hold | split].
  - apply H1; [simpl; left; reflexivity | reflexivity | vm_compute; reflexivity].
  - destruct (H2 "mydb" sample_new_importing_range) as [t [nt [Ht [Hin [Hnt _]]]]];
      [simpl; right; right; left; reflexivity | reflexivity | vm_compute; reflexivity |].
    exists t, nt; split; [exact Ht |]; split; [exact Hin | exact Hnt].
Defined.

Lemma handle_switch_replies_witness :
  @handle_switch sample_vtable sample_map
    (sample_switch_arg (task_meta "mydb" sample_migrating_range)) PreSwitch =
    Err SwitchError.PeerMigrating /\
  @handle_switch sample_vtable sample_map
    (sample_switch_arg (task_meta "mydb" sample_importing_range)) PreSwitch =
    Err SwitchError.NotReady /\
  @handle_switch sample_vtable sample_map
    (sample_switch_arg (task_meta "otherdb" sample_importing_range)) PreSwitch =
    Err SwitchError.TaskNotFound.
Proof.
  split; [| split].
  - destruct (@handle_switch_replies sample_vtable sample_map
                (sample_switch_arg (task_meta "mydb" sample_migrating_range)) PreSwitch)
      as [H _].
    apply (H {| mgr_ptr := 1; task := Left 0 |} 0); [vm_compute; reflexivity | reflexivity].
  - destruct (@handle_switch_replies sample_vtable sample_map
                (sample_switch_arg (task_meta "mydb" sample_importing_range)) PreSwitch)
      as [_ [H _]].
    apply (H {| mgr_ptr := 3; task := Right 2 |} 2);
      [vm_compute; reflexivity | reflexivity | reflexivity].
  - destruct (@handle_switch_replies sample_vtable sample_map
                (sample_switch_arg (task_meta "otherdb" sample_importing_range)) PreSwitch)
      as [_ [_ H]].
    apply H; vm_compute; reflexivity.
Defined.

Lemma send_fast_path_and_missing_key_witness :
  @send sample_vtable empty_map (sample_cmd (Some 5)) =
    (Err (SlotNotFound {| bh_task := log_event SentToMigrationBackend (sample_cmd (Some 5));
                          bh_hint := NotBlocking |}),
     log_event SentToMigrationBackend (sample_cmd (Some 5))) /\
  @send sample_vtable sample_map (sample_cmd None) =
    (Err MissingKey,
     set_resp_result (RespError "missing key")
       (log_event SentToMigrationBackend (sample_cmd None))).
Proof.
  split.
  - apply (proj1 (@send_fast_path_and_missing_key sample_vtable empty_map (sample_cmd (Some 5))));
      reflexivity.
  - apply (proj2 (@send_fast_path_and_missing_key sample_vtable sample_map (sample_cmd None)));
      [split; [reflexivity | intros cn tasks [E | []]; inversion E; discriminate]
      | reflexivity | vm_compute; discriminate].
Defined.

Lemma migration_map_wf_witness :
  wf_map (fst (update_from_old_task_map sample_map sample_cluster_map 10)) /\
  task_map empty_map = [].
Proof.
  destruct migration_map_wf as [H0 [H1 H2]]; split.
  - apply H1.
  - apply H2; [exact H0 | reflexivity].
Defined.

Lemma send_sync_task_only_migrating_witness :
  importing_contains_slot (TaskVTable := sample_vtable) 2 150 = true /\
  @send_sync_task sample_vtable sample_map (sample_cmd (Some 150)) =
    (Err (SlotNotFound {| bh_task := log_event SentToMigrationBackend (sample_cmd (Some 150));
                          bh_hint := NotBlocking |}),
     log_event SentToMigrationBackend (sample_cmd (Some 150))).
Proof.
  split; [reflexivity |].
  apply (@send_sync_task_only_migrating sample_vtable sample_map (sample_cmd (Some 150)) 150);
    [reflexivity | intros; reflexivity].
Defined.

End ManagerWitnesses.

(** * The slot range tag of [src/common/cluster.rs] *)

Module ClusterFacts.
Import Cluster.
Local Open Scope string_scope.

Lemma split_space_no_space s : no_space s = true -> split_space s = [s].
Proof.
  induction s as [|c rest IH]; [reflexivity |].
  unfold no_space in *; simpl; intros H; apply andb_prop in H as [Hc Hr].
  rewrite IH by exact Hr.
  destruct (Ascii.eqb c " "); [discriminate Hc | reflexivity].
Qed.

Lemma split_space_nonempty s : split_space s <> [].
Proof.
  destruct s as [|c rest]; simpl; [discriminate |].
  destruct (Ascii.eqb c " "); [discriminate |].
  destruct (split_space rest); discriminate.
Qed.

Lemma split_space_single_empty s : split_space s = [""] -> s = "".
Proof.
  destruct s as [|c rest]; [reflexivity |]; simpl.
  destruct (Ascii.eqb c " ").
  - intros H; injection H as H; exfalso; exact (split_space_nonempty rest H).
  - destruct (split_space rest); discriminate.
Qed.

Lemma split_space_app_space a b :
  no_space a = true -> split_space (a ++ String " " b) = a :: split_space b.
Proof.
  induction a as [|c a IH]; intros H; [reflexivity |].
  unfold no_space in H; simpl in H; apply andb_prop in H as [Hc Ha].
  simpl; rewrite IH by exact Ha.
  revert Hc; destruct (Ascii.eqb c " "); [intros Hc; discriminate Hc | intros _; reflexivity].
Qed.

Lemma split_terminator_last s pre x :
  split_space s = (pre ++ [x])%list ->
  split_terminator s = if string_dec x "" then pre else (pre ++ [x])%list.
Proof.
  intros H; unfold split_terminator; rewrite H, rev_app_distr; simpl.
  destruct x as [|c x]; simpl; [rewrite rev_involutive |]; reflexivity.
Qed.




End ClusterFacts.

(** * The HTTP handlers of [MemBrokerService] *)

Module BrokerFacts.
Import Broker.
Local Open Scope string_scope.

Definition max_step (reply : string -> option N) (acc : N) (addr : string) : N :=
  match reply addr with Some e => N.max acc e | None => acc end.

Lemma fetch_max_epoch_max_epoch reply addrs :
  max_epoch (fetch_max_epoch reply addrs) = fold_left (max_step reply) addrs 0%N.
Proof. reflexivity. Qed.

Lemma fold_max_step_lt reply addrs acc (B : N) :
  (acc < B)%N -> (forall a e, In a addrs -> reply a = Some e -> (e < B)%N) ->
  (fold_left (max_step reply) addrs acc < B)%N.
Proof.
  revert acc; induction addrs as [|a rest IH]; intros acc Hacc Hall; simpl; [exact Hacc |].
  apply IH; [| intros; eapply Hall; simpl; eauto].
  unfold max_step; destruct (reply a) as [e|] eqn:E; [| exact Hacc].
  apply N.max_lub_lt; [exact Hacc | apply (Hall a); simpl; auto].
Qed.

Lemma fold_max_step_ge reply addrs acc :
  (acc <= fold_left (max_step reply) addrs acc)%N /\
  (forall a e, In a addrs -> reply a = Some e -> (e <= fold_left (max_step reply) addrs acc)%N).
Proof.
  revert acc; induction addrs as [|a rest IH]; intros acc; simpl; [split; [lia | tauto] |].
  destruct (IH (max_step reply acc a)) as [H1 H2].
  split.
  - assert (acc <= max_step reply acc a)%N by (unfold max_step; destruct (reply a); lia).
    lia.
  - intros a' e [<- | Hin] Hr; [| exact (H2 a' e Hin Hr)].
    assert (e <= max_step reply acc a)%N by (unfold max_step; rewrite Hr; lia).
    lia.
Qed.

Lemma fold_max_step_cases reply addrs acc :
  fold_left (max_step reply) addrs acc = acc \/
  exists a, In a addrs /\ reply a = Some (fold_left (max_step reply) addrs acc).
Proof.
  revert acc; induction addrs as [|a rest IH]; intros acc; simpl; [left; reflexivity |].
  destruct (IH (max_step reply acc a)) as [-> | [a' [Hin Hr]]];
    [| right; exists a'; auto].
  unfold max_step; destruct (reply a) as [e|] eqn:E; [| left; reflexivity].
  destruct (N.max_spec acc e) as [[_ ->] | [_ ->]]; [right; exists a; auto | left; reflexivity].
Qed.

(** C5: when every proxy that answers reports an epoch below the largest
    [u64] (2^64 - 1), PUT /epoch/recovery takes the read lock, then
    the write lock, sets the global epoch to
    [max(global_epoch, max_reported + 1)] and leaves the rest of the store
    alone, and returns the proxies that did not answer; [max_reported] is
    the largest epoch reported (0 when none is). *)
Theorem recover_epoch_sets_max (reply : string -> option N) (s : MetaStore) :
  (forall a e, In a (all_proxies s) -> reply a = Some e -> (e < 2 ^ 64 - 1)%N) ->
  recover_epoch reply s =
    (Ok (filter (fun a => match reply a with None => true | Some _ => false end)
           (all_proxies s)),
     {| global_epoch :=
          N.max (global_epoch s) (max_epoch (fetch_max_epoch reply (all_proxies s)) + 1);
        cluster_epochs := cluster_epochs s; all_proxies := all_proxies s;
        failures := failures s; enable_ordered_proxy := enable_ordered_proxy s |},
     [ReadLock; WriteLock]) /\
  (forall a e, In a (all_proxies s) -> reply a = Some e ->
     (e <= max_epoch (fetch_max_epoch reply (all_proxies s)))%N) /\
  (max_epoch (fetch_max_epoch reply (all_proxies s)) = 0%N \/
   exists a, In a (all_proxies s) /\
             reply a = Some (max_epoch (fetch_max_epoch reply (all_proxies s)))).
Proof.
  intros Hlt; rewrite fetch_max_epoch_max_epoch.
  assert (Hpow : (2 ^ 64 = 18446744073709551616)%N) by reflexivity.
  rewrite Hpow in Hlt.
  assert (Hmx : (fold_left (max_step reply) (all_proxies s) 0 < 18446744073709551616 - 1)%N)
    by (apply fold_max_step_lt; [lia | exact Hlt]).
  split; [| split].
  - unfold recover_epoch, bind, read_store, write_store, store_recover_epoch, ret, get_proxies.
    cbn [fst snd].
    rewrite fetch_max_epoch_max_epoch.
    unfold u64_add; rewrite Hpow, N.mod_small by lia; reflexivity.
  - apply fold_max_step_ge.
  - destruct (fold_max_step_cases reply (all_proxies s) 0) as [-> | H]; [left | right]; auto.
Qed.

Lemma recover_epoch_sets_max_witness :
  fst (fst (recover_epoch sample_reply sample_store)) = Ok ["127.0.0.1:6003"] /\
  global_epoch (snd (fst (recover_epoch sample_reply sample_store))) = 26%N.
Proof.
  destruct (recover_epoch_sets_max sample_reply sample_store) as [Heq _].
  - intros a e Hin H; simpl in Hin; destruct Hin as [<- | [<- | [<- | []]]];
      vm_compute in H; inversion H; apply N.ltb_lt; reflexivity.
  - rewrite Heq; split; vm_compute; reflexivity.
Defined.

(** C5 (code bug): when a proxy reports the largest [u64] (an epoch that
    PUT /epoch/{epoch} can set), the unchecked [max_epoch + 1] of
    [MemBrokerService::recover_epoch] is 2^64, outside [u64]: a debug build
    panics, and a release build wraps it to 0, so the global epoch stays at
    the stale 10 instead of moving past every reported epoch. *)
Lemma recover_epoch_wraps_at_u64_max :
  (max_epoch (fetch_max_epoch sample_max_reply (all_proxies sample_store)) + 1 = 2 ^ 64)%N /\
  global_epoch (snd (fst (recover_epoch sample_max_reply sample_store))) = 10%N /\
  global_epoch (snd (fst (recover_epoch sample_max_reply sample_store))) <>
    N.max (global_epoch sample_store)
      (max_epoch (fetch_max_epoch sample_max_reply (all_proxies sample_store)) + 1).
Proof. split; [| split]; vm_compute; [reflexivity | reflexivity | discriminate]. Qed.

(** C7: when the store-level operation of a mutating route succeeds and
    leaves the store [s1], but persisting the store afterwards fails with
    [e], the handler answers the synchronization error [SyncError e]
    (HTTP 500) and the store stays [s1]: the mutation is not rolled back. *)
Theorem mutation_kept_on_sync_error (config : MemBrokerConfig)
    (meta_storage_store : MetaStore -> Result unit MetaSyncError) {A : Type}
    (r : MutRoute) (op : M (Result A MetaStoreError)) (s s1 : MetaStore) (v : A)
    (tr : list StoreEvent) (e : MetaSyncError) :
  op s = (Ok v, s1, tr) ->
  auto_update_meta_file config = true ->
  meta_storage_store s1 = Err e ->
  mutating_handler config meta_storage_store r op s =
    (Err (SyncError e), s1, (tr ++ [PersistFile])%list) /\
  status_code (SyncError e) = 500.
Proof.
  intros Hop Hauto Hstore; split; [| reflexivity].
  unfold mutating_handler, op_then_sync, op_and_sync, bind, trigger_update,
    update_meta_file, ret, from_sync_error.
  rewrite Hauto.
  destruct r; rewrite Hop; cbn; rewrite Hstore; cbn; rewrite ?app_nil_r; reflexivity.
Qed.

Lemma mutation_kept_on_sync_error_witness :
  mutating_handler sample_config (fun _ => Err Lock) BalanceMasters sample_bump_epoch sample_store =
    (Err (SyncError Lock), snd (fst (sample_bump_epoch sample_store)), [WriteLock; PersistFile]) /\
  global_epoch (snd (fst (sample_bump_epoch sample_store))) = 11%N.
Proof.
  split; [| reflexivity].
  apply (mutation_kept_on_sync_error sample_config (fun _ => Err Lock) BalanceMasters
           sample_bump_epoch sample_store (snd (fst (sample_bump_epoch sample_store))) tt
           [WriteLock] Lock); reflexivity.
Defined.




End BrokerFacts.

(** * [encode_repl_meta] and [parse_repl_meta] *)

Module ReplicatorFacts.
Import Replicator.
Local Open Scope string_scope.

Lemma to_uint_nonnil n : N.to_uint n <> Decimal.Nil.
Proof.
  intros E; pose proof (DecimalN.Unsigned.of_to n) as H; rewrite E in H; simpl in H; subst n.
  vm_compute in E; discriminate E.
Qed.

Lemma strip_plus_digits d :
  d <> Decimal.Nil -> strip_plus (NilZero.string_of_uint d) = NilZero.string_of_uint d.
Proof. destruct d; intros H; [contradiction | reflexivity ..]. Qed.

Lemma parse_u64_to_string n : (n < 2 ^ 64)%N -> parse_u64 (u64_to_string n) = Some n.
Proof.
  intros Hn; unfold parse_u64, u64_to_string.
  rewrite strip_plus_digits, NilZero.usu by apply to_uint_nonnil.
  rewrite DecimalN.Unsigned.of_to.
  apply N.ltb_lt in Hn; rewrite Hn; reflexivity.
Qed.

Lemma utf8_valid_digits d : utf8_valid (NilEmpty.string_of_uint d) = true.
Proof. induction d; simpl; auto. Qed.

Lemma utf8_valid_u64_to_string n : utf8_valid (u64_to_string n) = true.
Proof.
  unfold u64_to_string, NilZero.string_of_uint.
  destruct (N.to_uint n); [reflexivity | apply utf8_valid_digits ..].
Qed.

Lemma from_arg_to_arg f : from_arg (to_arg f) = f.
Proof. destruct f as [[|]]; reflexivity. Qed.

Lemma Forall_flat_map {A B} (P : B -> Prop) (f : A -> list B) l :
  (forall x, In x l -> Forall P (f x)) -> Forall P (flat_map f l).
Proof.
  induction l as [|x l IH]; intros H; simpl; [constructor |].
  apply Forall_app; split; [apply H; left; reflexivity |].
  apply IH; intros; apply H; right; assumption.
Qed.

Lemma encode_peers_valid ps :
  Forall peer_ok ps -> Forall (fun s => utf8_valid s = true) (encode_peers ps).
Proof.
  intros H; unfold encode_peers; apply Forall_flat_map; intros p Hin.
  apply (proj1 (Forall_forall _ _) H) in Hin as [H1 H2].
  repeat constructor; assumption.
Qed.

Lemma encode_repl_meta_valid meta :
  valid_meta meta -> Forall (fun s => utf8_valid s = true) (encode_repl_meta meta).
Proof.
  intros [_ [Hm Hr]]; unfold encode_repl_meta.
  apply Forall_app; split.
  { constructor; [apply utf8_valid_u64_to_string |].
    constructor; [unfold to_arg; destruct (force (flags meta)); reflexivity | constructor]. }
  apply Forall_app; split; apply Forall_flat_map; intros x Hin.
  - apply (proj1 (Forall_forall _ _) Hm) in Hin as [H1 [H2 [H3 _]]].
    unfold encode_master; apply Forall_app; split; [| apply encode_peers_valid; exact H3].
    repeat constructor; first [assumption | apply utf8_valid_u64_to_string].
  - apply (proj1 (Forall_forall _ _) Hr) in Hin as [H1 [H2 [H3 _]]].
    unfold encode_replica; apply Forall_app; split; [| apply encode_peers_valid; exact H3].
    repeat constructor; first [assumption | apply utf8_valid_u64_to_string].
Qed.

Lemma arg_strings_bulk c1 c2 l :
  Forall (fun s => utf8_valid s = true) l ->
  arg_strings (c1 :: c2 :: map (fun s => Bulk (Str s)) l) = l.
Proof.
  intros H; unfold arg_strings; cbn [skipn].
  induction H as [|x l Hx Hl IH]; [reflexivity |].
  cbn [map flat_map]; rewrite IH; unfold from_utf8; rewrite Hx; reflexivity.
Qed.

Lemma parse_peers_encode ps rest :
  parse_peers (length ps) (encode_peers ps ++ rest) = Ok (ps, rest).
Proof.
  unfold encode_peers; induction ps as [|[na pa] ps IH]; [reflexivity |].
  simpl; rewrite IH; reflexivity.
Qed.

Lemma parse_roles_nil fuel accm accr : parse_roles fuel [] accm accr = Ok (accm, accr).
Proof. destruct fuel; reflexivity. Qed.

Lemma parse_roles_masters ms rest fuel accm accr :
  Forall master_ok ms ->
  length (flat_map encode_master ms ++ rest) <= fuel ->
  exists fuel', length rest <= fuel' /\
    parse_roles fuel (flat_map encode_master ms ++ rest) accm accr =
    parse_roles fuel' rest (accm ++ ms) accr.
Proof.
  revert fuel accm; induction ms as [|m ms IH]; intros fuel accm Hok Hlen.
  - exists fuel; rewrite app_nil_r; auto.
  - inversion Hok as [|? ? Hm Hok']; subst.
    destruct m as [db node reps]; destruct Hm as [_ [_ [_ Hlt]]]; simpl in Hlt.
    assert (Hshape : (flat_map encode_master
                       ({| MasterMeta.db_name := db; MasterMeta.master_node_address := node;
                           MasterMeta.replicas := reps |} :: ms) ++ rest =
                     "master" :: db :: node :: u64_to_string (N.of_nat (length reps)) ::
                     (encode_peers reps ++ (flat_map encode_master ms ++ rest)))%list).
    { cbn [flat_map]; unfold encode_master; cbn [MasterMeta.db_name MasterMeta.master_node_address
        MasterMeta.replicas app]; rewrite <- !app_assoc; reflexivity. }
    rewrite Hshape in *; cbn [length] in Hlen; rewrite length_app in Hlen.
    destruct fuel as [|fuel]; [lia |].
    cbn [parse_roles].
    rewrite parse_u64_to_string by exact Hlt; rewrite Nat2N.id, parse_peers_encode.
    change (String.eqb (to_uppercase "master") "MASTER") with true; cbv iota beta.
    destruct (IH fuel (app accm [{| MasterMeta.db_name := db; MasterMeta.master_node_address := node;
                                   MasterMeta.replicas := reps |}]) Hok') as [f' [Hf' Heq]];
      [lia |].
    exists f'; split; [exact Hf' |]; rewrite Heq, <- app_assoc; reflexivity.
Qed.

Lemma parse_roles_replicas rs rest fuel accm accr :
  Forall replica_ok rs ->
  length (flat_map encode_replica rs ++ rest) <= fuel ->
  exists fuel', length rest <= fuel' /\
    parse_roles fuel (flat_map encode_replica rs ++ rest) accm accr =
    parse_roles fuel' rest accm (accr ++ rs).
Proof.
  revert fuel accr; induction rs as [|r rs IH]; intros fuel accr Hok Hlen.
  - exists fuel; rewrite app_nil_r; auto.
  - inversion Hok as [|? ? Hr Hok']; subst.
    destruct r as [db node peers]; destruct Hr as [_ [_ [_ Hlt]]]; simpl in Hlt.
    assert (Hshape : (flat_map encode_replica
                       ({| ReplicaMeta.db_name := db; ReplicaMeta.replica_node_address := node;
                           ReplicaMeta.masters := peers |} :: rs) ++ rest =
                     "replica" :: db :: node :: u64_to_string (N.of_nat (length peers)) ::
                     (encode_peers peers ++ (flat_map encode_replica rs ++ rest)))%list).
    { cbn [flat_map]; unfold encode_replica; cbn [ReplicaMeta.db_name
        ReplicaMeta.replica_node_address ReplicaMeta.masters app];
      rewrite <- !app_assoc; reflexivity. }
    rewrite Hshape in *; cbn [length] in Hlen; rewrite length_app in Hlen.
    destruct fuel as [|fuel]; [lia |].
    cbn [parse_roles].
    rewrite parse_u64_to_string by exact Hlt; rewrite Nat2N.id, parse_peers_encode.
    change (String.eqb (to_uppercase "replica") "MASTER") with false.
    change (String.eqb (to_uppercase "replica") "REPLICA") with true; cbv iota beta.
    destruct (IH fuel (app accr [{| ReplicaMeta.db_name := db;
                                   ReplicaMeta.replica_node_address := node;
                                   ReplicaMeta.masters := peers |}]) Hok') as [f' [Hf' Heq]];
      [lia |].
    exists f'; split; [exact Hf' |]; rewrite Heq, <- app_assoc; reflexivity.
Qed.

(** C6: for every [ReplicatorMeta] that Rust values can hold (strings valid
    UTF-8, the epoch and the peer counts below 2^64), parsing the RESP array
    of the two command words followed by [encode_repl_meta meta] as bulk
    strings gives back [meta]: same epoch, flags, masters and replicas. *)
Theorem parse_encode_repl_meta (c1 c2 : Resp) (meta : ReplicatorMeta) :
  valid_meta meta ->
  parse_repl_meta (Arr (c1 :: c2 :: map (fun s => Bulk (Str s)) (encode_repl_meta meta))) =
    Ok meta.
Proof.
  intros Hv; unfold parse_repl_meta.
  rewrite arg_strings_bulk by (apply encode_repl_meta_valid; exact Hv).
  destruct Hv as [He [Hm Hr]].
  destruct meta as [ep fl ms rs]; cbn [epoch flags masters replicas] in He, Hm, Hr.
  unfold encode_repl_meta; cbn [epoch flags masters replicas app].
  rewrite parse_u64_to_string by exact He; rewrite from_arg_to_arg.
  destruct (parse_roles_masters ms (flat_map encode_replica rs)
              (length (flat_map encode_master ms ++ flat_map encode_replica rs)) [] [] Hm
              (le_n _)) as [f1 [Hf1 E1]].
  rewrite E1.
  pose proof (parse_roles_replicas rs [] f1 (app [] ms) [] Hr) as H2.
  rewrite app_nil_r in H2; destruct (H2 Hf1) as [f2 [_ E2]].
  rewrite E2, parse_roles_nil; reflexivity.
Qed.

Lemma parse_encode_repl_meta_witness :
  encode_repl_meta sample_repl_meta =
    ["233"; "NOFLAG"; "master"; "testdb"; "localhost:6000"; "1"; "localhost:6001";
     "localhost:5299"; "replica"; "testdb"; "localhost:6001"; "1"; "localhost:6000";
     "localhost:5299"] /\
  parse_repl_meta (Arr (Bulk (Str "UMCTL") :: Bulk (Str "SETREPL") ::
                        map (fun s => Bulk (Str s)) (encode_repl_meta sample_repl_meta))) =
    Ok sample_repl_meta.
Proof.
  split; [vm_compute; reflexivity |].
  apply parse_encode_repl_meta.
  unfold valid_meta, master_ok, replica_ok, peer_ok; simpl.
  repeat split; repeat constructor; vm_compute; reflexivity.
Defined.

End ReplicatorFacts.

(** * More of [MigrationMap]: routing, switching, task states and updates *)

Module ManagerExtras.
Import Manager ManagerFacts.

Section Routing.
Context `{TaskVTable}.

(** [contains_slot] of the task a record holds. *)
Definition task_contains_slot (t : TaskRecord) (slot : nat) : bool :=
  match t with
  | Left p => migrating_contains_slot p slot
  | Right p => importing_contains_slot p slot
  end.

(** [send] of the task a record holds. *)
Definition task_send (t : TaskRecord) (cmd_task : CmdTask) : SendRes :=
  match t with
  | Left p => migrating_send p cmd_task
  | Right p => importing_send p cmd_task
  end.

Lemma send_to_tasks_first pre mt post slot cmd_task :
  (forall mt', In mt' pre -> task_contains_slot (task mt') slot = false) ->
  task_contains_slot (task mt) slot = true ->
  send_to_tasks (pre ++ mt :: post) slot cmd_task = (task_send (task mt) cmd_task, cmd_task).
Proof.
  induction pre as [|mt' pre IH]; intros Hpre Hmt; cbn [app send_to_tasks].
  - unfold task_contains_slot, task_send in *; destruct (task mt); rewrite Hmt; reflexivity.
  - assert (E := Hpre mt' (or_introl eq_refl)); unfold task_contains_slot in E.
    destruct (task mt') eqn:Ht; rewrite E; apply IH; auto;
      intros; apply Hpre; right; assumption.
Qed.

Lemma send_to_tasks_nowhere ts slot cmd_task :
  (forall mt, In mt ts -> task_contains_slot (task mt) slot = false) ->
  send_to_tasks ts slot cmd_task =
    (Err (SlotNotFound {| bh_task := cmd_task; bh_hint := NotBlocking |}), cmd_task).
Proof.
  induction ts as [|mt ts IH]; intros Hno; cbn [send_to_tasks]; [reflexivity |].
  assert (E := Hno mt (or_introl eq_refl)); unfold task_contains_slot in E.
  destruct (task mt) eqn:Ht; rewrite E; apply IH; intros; apply Hno; right; assumption.
Qed.

(** [send] on a map whose [empty] flag is clear, for a command with slot
    [slot]: a command of a cluster with no task comes back in
    [SlotNotFound]; otherwise the first task, in the iteration order of
    the cluster's tasks, whose range contains the slot takes the command,
    be it a migrating or an importing task; when no task contains the slot
    the command comes back in [SlotNotFound], not blocking. *)
Theorem send_routes_to_first_owner (m : MigrationMap) (cmd_task : CmdTask) (slot : nat) :
  empty m = false -> get_slot cmd_task = Some slot ->
  (hm_get (get_cluster_name cmd_task) (task_map m) = None ->
   send m cmd_task =
     (Err (SlotNotFound {| bh_task := log_event SentToMigrationBackend cmd_task;
                           bh_hint := NotBlocking |}),
      log_event SentToMigrationBackend cmd_task)) /\
  (forall tasks, hm_get (get_cluster_name cmd_task) (task_map m) = Some tasks ->
   (forall pre mt post, hm_values tasks = pre ++ mt :: post ->
      (forall mt', In mt' pre -> task_contains_slot (task mt') slot = false) ->
      task_contains_slot (task mt) slot = true ->
      send m cmd_task =
        (task_send (task mt) (log_event SentToMigrationBackend cmd_task),
         log_event SentToMigrationBackend cmd_task)) /\
   ((forall mt, In mt (hm_values tasks) -> task_contains_slot (task mt) slot = false) ->
    send m cmd_task =
      (Err (SlotNotFound {| bh_task := log_event SentToMigrationBackend cmd_task;
                            bh_hint := NotBlocking |}),
       log_event SentToMigrationBackend cmd_task))).
Proof.
  intros Hempty Hslot; unfold send, send_helper; rewrite Hempty.
  cbn [get_cluster_name get_slot log_event cmd_cluster_name cmd_slot].
  change (cmd_cluster_name cmd_task) with (get_cluster_name cmd_task).
  change (cmd_slot cmd_task) with (get_slot cmd_task); rewrite Hslot.
  split; [intros E; rewrite E; reflexivity |].
  intros tasks E; rewrite E; split.
  - intros pre mt post Hv Hpre Hmt; rewrite Hv; apply send_to_tasks_first; assumption.
  - intros Hno; apply send_to_tasks_nowhere; exact Hno.
Qed.

(** [handle_switch] succeeds exactly when the task registered under
    [switch_arg.meta] is an importing task whose own [handle_switch]
    succeeds; it never answers [InvalidArg], never wraps [NotReady] in
    [MgrErr], and an [MgrErr e] is the importing task's own error [e]. *)
Theorem handle_switch_outcomes (m : MigrationMap) (switch_arg : SwitchArg) (sub_cmd : MgrSubCmd) :
  (handle_switch m switch_arg sub_cmd = Ok tt <->
   exists mgr_task p,
     get_task (task_map m) (cluster_name (meta switch_arg)) (meta switch_arg) = Some mgr_task /\
     task mgr_task = Right p /\ importing_handle_switch p switch_arg sub_cmd = Ok tt) /\
  handle_switch m switch_arg sub_cmd <> Err SwitchError.InvalidArg /\
  handle_switch m switch_arg sub_cmd <> Err (SwitchError.MgrErr MigrationError.NotReady) /\
  (forall e, handle_switch m switch_arg sub_cmd = Err (SwitchError.MgrErr e) ->
   exists mgr_task p,
     get_task (task_map m) (cluster_name (meta switch_arg)) (meta switch_arg) = Some mgr_task /\
     task mgr_task = Right p /\ importing_handle_switch p switch_arg sub_cmd = Err e).
Proof.
  unfold handle_switch, get_task.
  destruct (hm_get (cluster_name (meta switch_arg)) (task_map m)) as [tasks|];
    [| split; [split; [discriminate | intros [? [? [Hx _]]]; discriminate Hx] |];
       split; [discriminate | split; [discriminate | intros e Hx; discriminate Hx]]].
  destruct (hm_get (meta switch_arg) tasks) as [mt|];
    [| split; [split; [discriminate | intros [? [? [Hx _]]]; discriminate Hx] |];
       split; [discriminate | split; [discriminate | intros e Hx; discriminate Hx]]].
  destruct (task mt) as [p|p] eqn:Ht.
  - split; [split; [discriminate | intros [mt' [p' [[= <-] [Ht' _]]]]; congruence] |].
    split; [discriminate | split; [discriminate | intros e Hx; discriminate Hx]].
  - destruct (importing_handle_switch p switch_arg sub_cmd) as [[]|[|c]] eqn:Hs.
    + split; [split; [intros _; exists mt, p; auto | reflexivity] |].
      split; [discriminate | split; [discriminate | intros e Hx; discriminate Hx]].
    + split; [split; [discriminate | intros [mt' [p' [[= <-] [Ht' Hs']]]]; congruence] |].
      split; [discriminate | split; [discriminate | intros e Hx; discriminate Hx]].
    + split; [split; [discriminate | intros [mt' [p' [[= <-] [Ht' Hs']]]]; congruence] |].
      split; [discriminate | split; [discriminate |]].
      intros e [= <-]; exists mt, p; auto.
Qed.
End Routing.

Section States.
Context {MigrationState : Type} `{EqDec MigrationState} `{TaskStates MigrationState}.

(** [get_finished_tasks] lists the meta of a task exactly when some
    cluster has a task under that meta whose state is [SwitchCommitted]. *)
Theorem get_finished_tasks_spec (SwitchCommitted : MigrationState) (m : MigrationMap)
    (k : MigrationTaskMeta) :
  In k (get_finished_tasks SwitchCommitted m) <->
  exists cn tasks mgr_task, In (cn, tasks) (task_map m) /\ In (k, mgr_task) tasks /\
    get_state (task mgr_task) = SwitchCommitted.
Proof.
  unfold get_finished_tasks; rewrite in_flat_map; split.
  - intros [[cn tasks] [Hin Hk]]; rewrite in_flat_map in Hk; destruct Hk as [[k' mt] [Hin' Hk]].
    destruct (eq_dec (get_state (task mt)) SwitchCommitted) as [E|E]; [| destruct Hk].
    destruct Hk as [<- | []]; exists cn, tasks, mt; auto.
  - intros [cn [tasks [mt [Hin [Hk Hs]]]]]; exists (cn, tasks); split; [exact Hin |].
    apply in_flat_map; exists (k, mt); split; [exact Hk |].
    destruct (eq_dec (get_state (task mt)) SwitchCommitted); [left; reflexivity | contradiction].
Qed.

(** One round of the loop of [get_states]. *)
Definition states_step (acc : HashMap RangeList MigrationState)
    (kv : MigrationTaskMeta * MgrTask) : HashMap RangeList MigrationState :=
  let '(meta, mgr_task) := kv in
  hm_insert (to_range_list (slot_range meta)) (get_state (task mgr_task)) acc.

Lemma get_states_eq (m : MigrationMap) (cn : ClusterName) :
  get_states m cn =
  match hm_get cn (task_map m) with
  | Some tasks => fold_left states_step tasks []
  | None => []
  end.
Proof. reflexivity. Qed.

Lemma states_fold_some tasks acc r v :
  hm_get r (fold_left states_step tasks acc) = Some v ->
  hm_get r acc = Some v \/
  exists k t, In (k, t) tasks /\ to_range_list (slot_range k) = r /\ get_state (task t) = v.
Proof.
  revert acc; induction tasks as [|[k t] tasks IH]; intros acc Hg; cbn [fold_left] in Hg;
    [left; exact Hg |].
  destruct (IH _ Hg) as [H1 | [k' [t' [H2 H3]]]];
    [| right; exists k', t'; split; [right; exact H2 | exact H3]].
  unfold states_step in H1; rewrite hm_get_insert in H1.
  destruct (eq_dec r (to_range_list (slot_range k))) as [->|]; [| left; exact H1].
  injection H1 as <-; right; exists k, t; split; [left; reflexivity | split; reflexivity].
Qed.

Lemma states_fold_mono tasks acc r :
  hm_get r acc <> None -> hm_get r (fold_left states_step tasks acc) <> None.
Proof.
  revert acc; induction tasks as [|[k t] tasks IH]; intros acc Hg; cbn [fold_left]; [exact Hg |].
  apply IH; unfold states_step; rewrite hm_get_insert.
  destruct (eq_dec r (to_range_list (slot_range k))); [discriminate | exact Hg].
Qed.

Lemma states_fold_present tasks acc k t :
  In (k, t) tasks -> hm_get (to_range_list (slot_range k)) (fold_left states_step tasks acc) <> None.
Proof.
  revert acc; induction tasks as [|[k0 t0] tasks IH]; intros acc Hin; [destruct Hin |].
  cbn [fold_left]; destruct Hin as [E | Hin]; [| apply IH; exact Hin].
  injection E as -> ->; apply states_fold_mono; unfold states_step; rewrite hm_get_insert.
  destruct (eq_dec _ _); [discriminate | congruence].
Qed.

(** [get_states] of a cluster with no task is empty; for a cluster with
    tasks, a range list has a state exactly when some task of the cluster
    is on that range list, and the state it has is the state of such a
    task. *)
Theorem get_states_spec (m : MigrationMap) (cn : ClusterName) :
  (hm_get cn (task_map m) = None -> get_states m cn = []) /\
  (forall tasks, hm_get cn (task_map m) = Some tasks ->
   forall r,
     (forall v, hm_get r (get_states m cn) = Some v ->
        exists k t, In (k, t) tasks /\ to_range_list (slot_range k) = r /\
                    get_state (task t) = v) /\
     (hm_get r (get_states m cn) = None <->
        forall k t, In (k, t) tasks -> to_range_list (slot_range k) <> r)).
Proof.
  split; [intros E; rewrite get_states_eq, E; reflexivity |].
  intros tasks E r; rewrite get_states_eq, E; split.
  - intros v Hg; apply states_fold_some in Hg as [Hg | Hg]; [discriminate Hg | exact Hg].
  - split.
    + intros Hg k t Hin Hr; subst r; exact (states_fold_present tasks [] k t Hin Hg).
    + intros Hno; destruct (hm_get r (fold_left states_step tasks [])) as [v|] eqn:Hg;
        [| reflexivity].
      apply states_fold_some in Hg as [Hg | [k [t [Hin [Hr _]]]]];
        [discriminate Hg | exfalso; exact (Hno k t Hin Hr)].
Qed.
End States.

(** [update_from_old_task_map] as its two loops over [flat_ranges]. *)
Lemma update_from_old_task_map_folds self local_cluster_map next_ptr :
  exists ptr,
    fold_left (fun st '(cn, sr) => spawn_new cn st sr) (flat_ranges local_cluster_map)
      (fold_left (fun acc '(cn, sr) => keep_old (task_map self) cn acc sr)
         (flat_ranges local_cluster_map) [], [], next_ptr) =
    (task_map (fst (update_from_old_task_map self local_cluster_map next_ptr)),
     snd (update_from_old_task_map self local_cluster_map next_ptr), ptr) /\
    empty (fst (update_from_old_task_map self local_cluster_map next_ptr)) =
    hm_is_empty (task_map (fst (update_from_old_task_map self local_cluster_map next_ptr))).
Proof.
  unfold update_from_old_task_map; cbv zeta.
  rewrite (fold_nested_flat (keep_old (task_map self))), (fold_nested_flat spawn_new).
  destruct (fold_left (fun st '(cn, sr) => spawn_new cn st sr) (flat_ranges local_cluster_map) _)
    as [[mc nts] ptr].
  exists ptr; split; reflexivity.
Qed.

Lemma pass1_from_nil old L cn k t :
  get_task (fold_left (fun acc '(cn, sr) => keep_old old cn acc sr) L []) cn k = Some t <->
  key_in L cn k /\ get_task old cn k = Some t.
Proof.
  rewrite pass1_spec; [| intros ? ? ? H; cbn in H; discriminate H].
  split; [intros [H | H]; [cbn in H; discriminate H | exact H] | auto].
Qed.

(** Every task of an updated map is registered under a tagged range of the
    new cluster map. *)
Lemma update_keys_in self local_cluster_map next_ptr cn k t :
  get_task (task_map (fst (update_from_old_task_map self local_cluster_map next_ptr))) cn k =
    Some t ->
  key_in (flat_ranges local_cluster_map) cn k.
Proof.
  destruct (update_from_old_task_map_folds self local_cluster_map next_ptr) as [ptr [Hf _]].
  set (L := flat_ranges local_cluster_map) in *.
  set (mc1 := fold_left (fun acc '(cn, sr) => keep_old (task_map self) cn acc sr) L []) in *.
  assert (Hinv : pass2_inv L mc1 next_ptr
                   (fold_left (fun st '(cn, sr) => spawn_new cn st sr) L (mc1, [], next_ptr))).
  { apply (fold_left_inv (pass2_inv L mc1 next_ptr)).
    - hnf; split; [lia |]; split; [auto |]; split; [auto | intros _ []].
    - intros st [cn' sr] Hin Hst; apply pass2_inv_step; assumption. }
  rewrite Hf in Hinv; unfold pass2_inv in Hinv; destruct Hinv as [_ [_ [Hk _]]].
  intros Hg; destruct (Hk _ _ _ Hg) as [H1 | [sr [nt [-> [H2 [_ [_ [H5 _]]]]]]]].
  - apply pass1_from_nil in H1; exact (proj1 H1).
  - exists sr; split; [exact H2 |]; split; [exact (describes_tagged _ _ _ H5) | reflexivity].
Qed.

(** Every tagged range of the new cluster map has a task in the updated
    map. *)
Lemma update_tagged_present self local_cluster_map next_ptr cn sr :
  In (cn, sr) (flat_ranges local_cluster_map) -> is_tagged sr = true ->
  get_task (task_map (fst (update_from_old_task_map self local_cluster_map next_ptr))) cn
    (task_meta cn sr) <> None.
Proof.
  intros Hin Ht.
  destruct (update_from_old_task_map_folds self local_cluster_map next_ptr) as [ptr [Hf _]].
  pose proof (pass2_present (flat_ranges local_cluster_map)
                (fold_left (fun acc '(cn, sr) => keep_old (task_map self) cn acc sr)
                   (flat_ranges local_cluster_map) [], [], next_ptr) cn sr Hin Ht) as Hp.
  rewrite Hf in Hp; exact Hp.
Qed.

Lemma spawn_new_kept cn0 mc nts ptr sr0 :
  (is_tagged sr0 = true -> get_task mc cn0 (task_meta cn0 sr0) <> None) ->
  spawn_new cn0 (mc, nts, ptr) sr0 = (mc, nts, ptr).
Proof.
  unfold spawn_new, is_tagged; intros Hk.
  destruct (tag sr0); [| | reflexivity];
    (rewrite already_kept_get_task; fold (task_meta cn0 sr0);
     destruct (get_task mc cn0 (task_meta cn0 sr0)) eqn:E;
     [reflexivity | exfalso; exact (Hk eq_refl eq_refl)]).
Qed.

Lemma pass2_all_kept L mc nts ptr :
  (forall cn sr, In (cn, sr) L -> is_tagged sr = true -> get_task mc cn (task_meta cn sr) <> None) ->
  fold_left (fun st '(cn, sr) => spawn_new cn st sr) L (mc, nts, ptr) = (mc, nts, ptr).
Proof.
  induction L as [|[cn sr] L IH]; intros Hk; cbn [fold_left]; [reflexivity |].
  rewrite spawn_new_kept by (apply Hk; left; reflexivity).
  apply IH; intros; apply Hk; [right |]; assumption.
Qed.

Lemma update_empty_iff self local_cluster_map next_ptr :
  empty (fst (update_from_old_task_map self local_cluster_map next_ptr)) = true <->
  forall cn sr, In (cn, sr) (flat_ranges local_cluster_map) -> is_tagged sr = false.
Proof.
  destruct (update_from_old_task_map_folds self local_cluster_map next_ptr) as [ptr [Hf He]].
  rewrite He; split.
  - intros Hemp cn sr Hin; destruct (is_tagged sr) eqn:Ht; [exfalso | reflexivity].
    apply (update_tagged_present self local_cluster_map next_ptr cn sr Hin Ht).
    destruct (task_map (fst (update_from_old_task_map self local_cluster_map next_ptr)));
      [reflexivity | discriminate Hemp].
  - intros Hno.
    assert (H1 : fold_left (fun acc '(cn, sr) => keep_old (task_map self) cn acc sr)
                   (flat_ranges local_cluster_map) [] = []).
    { apply (fold_left_inv (fun acc : TaskMap => acc = [])); [reflexivity |].
      intros acc [cn sr] Hin ->; specialize (Hno cn sr Hin); unfold is_tagged in Hno.
      unfold keep_old; destruct (tag sr); [discriminate | discriminate | reflexivity]. }
    rewrite H1, pass2_all_kept in Hf by (intros cn sr Hin Ht; rewrite (Hno cn sr Hin) in Ht;
                                          discriminate Ht).
    injection Hf as <- _ _; reflexivity.
Qed.

(** The [empty] flag of an updated map is set exactly when the new cluster
    map has no [Migrating] or [Importing] range, whatever the old map held:
    an old task never keeps the map non-empty on its own. *)
Theorem update_from_old_task_map_empty (self : MigrationMap)
    (local_cluster_map : ProxyClusterMap) (next_ptr : Ptr) :
  empty (fst (update_from_old_task_map self local_cluster_map next_ptr)) = true <->
  forall cn sr, In (cn, sr) (flat_ranges local_cluster_map) -> is_tagged sr = false.
Proof. apply update_empty_iff. Qed.

(** Updating a map a second time with the same cluster map spawns no new
    task and changes nothing: the same task is registered under every key,
    and the [empty] flag is the same. *)
Theorem update_from_old_task_map_reapply (self : MigrationMap)
    (local_cluster_map : ProxyClusterMap) (next_ptr next_ptr' : Ptr) :
  snd (update_from_old_task_map (fst (update_from_old_task_map self local_cluster_map next_ptr))
         local_cluster_map next_ptr') = [] /\
  empty (fst (update_from_old_task_map
                (fst (update_from_old_task_map self local_cluster_map next_ptr))
                local_cluster_map next_ptr')) =
  empty (fst (update_from_old_task_map self local_cluster_map next_ptr)) /\
  (forall cn k,
     get_task (task_map (fst (update_from_old_task_map
                                (fst (update_from_old_task_map self local_cluster_map next_ptr))
                                local_cluster_map next_ptr'))) cn k =
     get_task (task_map (fst (update_from_old_task_map self local_cluster_map next_ptr))) cn k).
Proof.
  set (m1 := fst (update_from_old_task_map self local_cluster_map next_ptr)).
  set (L := flat_ranges local_cluster_map).
  assert (Hkeys : forall cn k t, get_task (task_map m1) cn k = Some t -> key_in L cn k)
    by (intros cn k t; apply update_keys_in).
  assert (Hpres : forall cn sr, In (cn, sr) L -> is_tagged sr = true ->
                    get_task (task_map m1) cn (task_meta cn sr) <> None)
    by (intros cn sr; apply update_tagged_present).
  set (mc1 := fold_left (fun acc '(cn, sr) => keep_old (task_map m1) cn acc sr) L []).
  assert (Hmc1 : forall cn k, get_task mc1 cn k = get_task (task_map m1) cn k).
  { intros cn k; destruct (get_task (task_map m1) cn k) as [t|] eqn:E.
    - apply pass1_from_nil; split; [exact (Hkeys _ _ _ E) | exact E].
    - destruct (get_task mc1 cn k) as [t|] eqn:E'; [| reflexivity].
      apply pass1_from_nil in E'; destruct E' as [_ E']; congruence. }
  destruct (update_from_old_task_map_folds m1 local_cluster_map next_ptr') as [ptr [Hf He]].
  fold L mc1 in Hf.
  rewrite pass2_all_kept in Hf by (intros cn sr Hin Ht; rewrite Hmc1; apply Hpres; assumption).
  injection Hf as Hmc Hnts _.
  split; [symmetry; exact Hnts |]; split.
  - apply Bool.eq_true_iff_eq.
    rewrite (update_empty_iff m1 local_cluster_map next_ptr').
    unfold m1; rewrite (update_empty_iff self local_cluster_map next_ptr); reflexivity.
  - intros cn k; rewrite <- Hmc; apply Hmc1.
Qed.

End ManagerExtras.

(** * Runs of the [ManagerExtras] theorems on the sample data *)

Module ManagerExtrasWitnesses.
Import Manager ManagerFacts ManagerExtras.
Local Open Scope string_scope.

Lemma send_routes_to_first_owner_witness :
  @send sample_vtable sample_map (sample_cmd (Some 150)) =
    (Ok tt, log_event SentToMigrationBackend (sample_cmd (Some 150))).
Proof.
  destruct (@send_routes_to_first_owner sample_vtable sample_map (sample_cmd (Some 150)) 150
              eq_refl eq_refl) as [_ H].
  destruct (H [(task_meta "mydb" sample_migrating_range, {| mgr_ptr := 1; task := Left 0 |});
               (task_meta "mydb" sample_importing_range, {| mgr_ptr := 3; task := Right 2 |})])
    as [H1 _]; [vm_compute; reflexivity |].
  rewrite (H1 [{| mgr_ptr := 1; task := Left 0 |}] {| mgr_ptr := 3; task := Right 2 |} []);
    [reflexivity | reflexivity | intros mt' [<- | []]; reflexivity | reflexivity].
Defined.

Lemma get_states_spec_witness :
  @get_states nat sample_states sample_map "mydb" = [([(100, 199)], 1); ([(0, 99)], 4)] /\
  hm_get [(300, 399)] (@get_states nat sample_states sample_map "mydb") = None.
Proof.
  split; [vm_compute; reflexivity |].
  destruct (@get_states_spec nat sample_states sample_map "mydb") as [_ H].
  apply (proj2 (proj2 (H [(task_meta "mydb" sample_migrating_range, {| mgr_ptr := 1; task := Left 0 |});
                           (task_meta "mydb" sample_importing_range, {| mgr_ptr := 3; task := Right 2 |})]
                        ltac:(vm_compute; reflexivity) [(300, 399)]))).
  intros k t [E | [E | []]]; inversion E; subst; discriminate.
Defined.

End ManagerExtrasWitnesses.

(** ** Further properties of the slot-range tag codec *)

Module ClusterExtras.
Import Cluster ClusterFacts.
Local Open Scope string_scope.

Lemma deserialize_none_terminator s :
  deserialize s = Ok SlotRangeTag.None -> split_terminator s = [].
Proof.
  unfold deserialize; destruct (split_terminator s) as [|flag segs]; [auto |].
  destruct (negb _); [discriminate |].
  destruct segs; discriminate.
Qed.

(** [SlotRangeTag::deserialize], edge cases: the tag [None] is read exactly
    from the empty string; after ["migrating"] and the destination, the rest
    of the string is ignored, so [serialize (Migrating (a ++ " " ++ b))] reads
    back as [Migrating a]; an empty destination written by [serialize] is
    refused with ["Missing destination address"]; any non-empty string whose
    first space-separated piece is not ["migrating"] is refused with
    ["Invalid flag"]. *)
Theorem deserialize_edges :
  (forall s, deserialize s = Ok SlotRangeTag.None <-> s = "") /\
  (forall dst rest, no_space dst = true ->
     deserialize ("migrating " ++ dst ++ " " ++ rest) = Ok (SlotRangeTag.Migrating dst)) /\
  deserialize (serialize (SlotRangeTag.Migrating "")) = Err "Missing destination address" /\
  (forall s, s <> "" -> hd_error (split_space s) <> Some "migrating" ->
     deserialize s = Err "Invalid flag").
Proof.
  split; [| split; [| split]].
  - intros s; split; [| intros ->; reflexivity].
    intros H; apply deserialize_none_terminator in H.
    destruct (exists_last (split_space_nonempty s)) as [pre [x Hpx]].
    rewrite (split_terminator_last s pre x Hpx) in H.
    destruct (string_dec x "") as [->|Hx].
    + subst pre; apply split_space_single_empty; exact Hpx.
    + destruct pre; discriminate.
  - intros dst rest Hns.
    change ("migrating " ++ (dst ++ " " ++ rest)) with
      ("migrating" ++ String " " (dst ++ String " " rest)).
    destruct (exists_last (split_space_nonempty rest)) as [pre [x Hpx]].
    assert (Hs : split_space ("migrating" ++ String " " (dst ++ String " " rest)) =
                 (("migrating" :: dst :: pre) ++ [x])%list).
    { rewrite split_space_app_space by reflexivity.
      rewrite split_space_app_space by exact Hns.
      rewrite Hpx; reflexivity. }
    unfold deserialize; rewrite (split_terminator_last _ _ _ Hs).
    destruct (string_dec x ""); reflexivity.
  - reflexivity.
  - intros s Hs Hhd.
    destruct (exists_last (split_space_nonempty s)) as [pre [x Hpx]].
    assert (Ht : exists a r, split_terminator s = a :: r /\
                             hd_error (split_space s) = Some a).
    { rewrite (split_terminator_last s pre x Hpx), Hpx.
      destruct pre as [|a pre].
      - destruct (string_dec x "") as [->|Hx].
        + exfalso; apply Hs, split_space_single_empty; exact Hpx.
        + exists x, []; split; reflexivity.
      - exists a; destruct (string_dec x "");
          [exists pre | exists (pre ++ [x])%list]; split; reflexivity. }
    destruct Ht as [a [r [Ht Ha]]].
    unfold deserialize; rewrite Ht.
    destruct (String.eqb a "migrating") eqn:E; [| reflexivity].
    apply String.eqb_eq in E; subst a; congruence.
Qed.

End ClusterExtras.

(** ** Further properties of the replicator argument parser *)

Module ReplicatorExtras.
Import Replicator ReplicatorFacts.
Local Open Scope string_scope.

(** A string of ASCII characters only: [str::to_uppercase] maps it as
    [to_uppercase] does. *)
Definition ascii_only (s : string) : bool :=
  forallb (fun c => Nat.ltb (nat_of_ascii c) 128) (list_ascii_of_string s).

Lemma ascii_only_utf8 s : ascii_only s = true -> utf8_valid s = true.
Proof.
  induction s as [|c s IH]; [reflexivity |].
  unfold ascii_only; simpl; intros H; apply andb_prop in H as [Hc Hs].
  apply Nat.ltb_lt in Hc.
  assert (E : in_range 0 127 c = true).
  { unfold in_range; apply andb_true_intro; split; apply Nat.leb_le; lia. }
  rewrite E; apply IH; exact Hs.
Qed.

Lemma parse_repl_meta_args arr arr' :
  arg_strings arr = arg_strings arr' -> parse_repl_meta (Arr arr) = parse_repl_meta (Arr arr').
Proof. intros H; unfold parse_repl_meta; cbv beta iota zeta; rewrite H; reflexivity. Qed.

Lemma parse_u64_to_string_big n : (2 ^ 64 <= n)%N -> parse_u64 (u64_to_string n) = None.
Proof.
  intros Hn; unfold parse_u64, u64_to_string.
  rewrite strip_plus_digits, NilZero.usu by apply to_uint_nonnil.
  rewrite DecimalN.Unsigned.of_to.
  apply N.ltb_ge in Hn; rewrite Hn; reflexivity.
Qed.

Lemma parse_peers_short k it : length it < 2 * k -> parse_peers k it = Err ParseError.
Proof.
  revert it; induction k as [|k IH]; intros it Hl; [lia |].
  destruct it as [|a [|b rest]]; try reflexivity.
  cbn [parse_peers]; rewrite IH by (simpl in Hl; lia); reflexivity.
Qed.

Lemma length_encode_peers ps : length (encode_peers ps) = 2 * length ps.
Proof.
  unfold encode_peers; induction ps as [|p ps IH]; [reflexivity |].
  cbn [flat_map app length]; rewrite IH; lia.
Qed.

(** One role group cut short by its last argument is refused. *)
Lemma parse_roles_truncated_group role db node peers fuel accm accr :
  (N.of_nat (length peers) < 2 ^ 64)%N ->
  parse_roles fuel
    (removelast ([role; db; node; u64_to_string (N.of_nat (length peers))] ++
                 encode_peers peers)) accm accr = Err ParseError.
Proof.
  intros Hlt.
  destruct (encode_peers peers) as [|x xs] eqn:Ep.
  - destruct fuel; reflexivity.
  - assert (Hshape : removelast ([role; db; node; u64_to_string (N.of_nat (length peers))] ++
                                 x :: xs) =
                     role :: db :: node :: u64_to_string (N.of_nat (length peers)) ::
                     removelast (x :: xs)).
    { rewrite removelast_app by discriminate; reflexivity. }
    rewrite Hshape; destruct fuel as [|fuel]; [reflexivity |].
    cbn [parse_roles]; rewrite parse_u64_to_string by exact Hlt; rewrite Nat2N.id.
    rewrite parse_peers_short; [reflexivity |].
    pose proof (length_encode_peers peers) as Hl; rewrite Ep in Hl.
    pose proof (app_removelast_last x (l := x :: xs) ltac:(discriminate)) as Hr.
    apply (f_equal (@length string)) in Hr; rewrite length_app in Hr.
    cbn [length] in Hr, Hl |- *; lia.
Qed.

Lemma list_last_cases {A} (l : list A) : l = [] \/ exists l' x, l = (l' ++ [x])%list.
Proof. destruct l using rev_ind; [left | right]; eauto. Qed.

Lemma Forall_removelast {A} (P : A -> Prop) l : Forall P l -> Forall P (removelast l).
Proof.
  induction 1 as [|x l Hx Hl IH]; [constructor |].
  destruct l; simpl; [constructor | constructor; assumption].
Qed.

(** [parse_repl_meta] reads only the UTF-8 bulk strings after the first two
    elements: the two command words are never looked at, and an element that
    is not a bulk string, or whose bytes are not valid UTF-8, is skipped
    silently, the result being the one without it. *)
Theorem parse_repl_meta_skips_elements (c1 c2 d1 d2 x : Resp) (a b : list Resp) :
  (forall s, x = Bulk (Str s) -> utf8_valid s = false) ->
  parse_repl_meta (Arr (c1 :: c2 :: a ++ x :: b)) = parse_repl_meta (Arr (d1 :: d2 :: a ++ b)).
Proof.
  intros Hx; apply parse_repl_meta_args.
  unfold arg_strings; cbn [skipn]; rewrite !flat_map_app; cbn [flat_map].
  destruct x as [| | |[s|]| |]; try reflexivity.
  unfold from_utf8; rewrite (Hx s eq_refl); reflexivity.
Qed.

(** [parse_repl_meta] fails on a RESP value that is not an array, on an
    array with fewer than two argument strings after the command words (no
    epoch, or no flags), and on an epoch that is not a [u64]; in particular a
    decimal epoch of 2^64 or more is refused, not wrapped. *)
Theorem parse_repl_meta_rejects :
  (forall resp, (forall arr, resp <> Arr arr) -> parse_repl_meta resp = Err ParseError) /\
  (forall arr, length (arg_strings arr) < 2 -> parse_repl_meta (Arr arr) = Err ParseError) /\
  (forall arr e rest, arg_strings arr = e :: rest -> parse_u64 e = None ->
     parse_repl_meta (Arr arr) = Err ParseError) /\
  (forall n, (2 ^ 64 <= n)%N -> parse_u64 (u64_to_string n) = None).
Proof.
  split; [| split; [| split]].
  - intros resp H; destruct resp; try reflexivity; exfalso; eapply H; reflexivity.
  - intros arr Hl; unfold parse_repl_meta; cbv beta iota zeta.
    destruct (arg_strings arr) as [|e [|f rest]]; [reflexivity | | simpl in Hl; lia].
    destruct (parse_u64 e); reflexivity.
  - intros arr e rest H He; unfold parse_repl_meta; cbv beta iota zeta.
    rewrite H; cbv beta iota; rewrite He; reflexivity.
  - exact parse_u64_to_string_big.
Qed.

(** A role group appended after a valid encoding, with no peers: the role
    word is compared case-insensitively; a ["master"] group joins the masters
    even though it comes after the replica groups, a ["replica"] group joins
    the replicas, and any other role word makes the whole parse fail. *)
Theorem parse_repl_meta_extra_group (c1 c2 : Resp) (meta : ReplicatorMeta) (role db node : string) :
  valid_meta meta -> ascii_only role = true -> utf8_valid db = true -> utf8_valid node = true ->
  parse_repl_meta (Arr (c1 :: c2 :: map (fun s => Bulk (Str s))
                          (encode_repl_meta meta ++ [role; db; node; "0"]))) =
    if String.eqb (to_uppercase role) "MASTER" then
      Ok {| epoch := epoch meta; flags := flags meta;
            masters := masters meta ++
              [{| MasterMeta.db_name := db; MasterMeta.master_node_address := node;
                  MasterMeta.replicas := [] |}];
            replicas := replicas meta |}
    else if String.eqb (to_uppercase role) "REPLICA" then
      Ok {| epoch := epoch meta; flags := flags meta; masters := masters meta;
            replicas := replicas meta ++
              [{| ReplicaMeta.db_name := db; ReplicaMeta.replica_node_address := node;
                  ReplicaMeta.masters := [] |}] |}
    else Err ParseError.
Proof.
  intros Hv Hrole Hdb Hnode; unfold parse_repl_meta.
  rewrite arg_strings_bulk.
  2: { apply Forall_app; split; [apply encode_repl_meta_valid; exact Hv |].
       repeat constructor; try assumption; apply ascii_only_utf8; exact Hrole. }
  destruct Hv as [He [Hm Hr]].
  destruct meta as [ep fl ms rs]; cbn [epoch flags masters replicas] in He, Hm, Hr |- *.
  set (extra := [role; db; node; "0"]).
  assert (Hit : (encode_repl_meta {| epoch := ep; flags := fl; masters := ms; replicas := rs |}
                 ++ extra)%list =
                u64_to_string ep :: to_arg fl ::
                (flat_map encode_master ms ++ (flat_map encode_replica rs ++ extra))%list).
  { unfold encode_repl_meta; cbn [epoch flags masters replicas app]; rewrite <- !app_assoc;
    reflexivity. }
  rewrite Hit; cbv beta iota zeta.
  rewrite parse_u64_to_string by exact He; rewrite from_arg_to_arg.
  destruct (parse_roles_masters ms (flat_map encode_replica rs ++ extra)
              (length (flat_map encode_master ms ++ (flat_map encode_replica rs ++ extra)))
              [] [] Hm (le_n _)) as [f1 [Hf1 E1]].
  rewrite E1.
  destruct (parse_roles_replicas rs extra f1 (app [] ms) [] Hr Hf1) as [f2 [Hf2 E2]].
  rewrite E2; cbn [app].
  destruct f2 as [|f2]; [simpl in Hf2; lia |].
  unfold extra; cbn [parse_roles].
  replace (parse_u64 "0") with (Some 0%N) by reflexivity.
  cbn [N.to_nat parse_peers].
  destruct (String.eqb (to_uppercase role) "MASTER");
    [| destruct (String.eqb (to_uppercase role) "REPLICA")];
    rewrite ?parse_roles_nil; reflexivity.
Qed.

(** Dropping the last argument of any valid encoding makes [parse_repl_meta]
    fail: a cut-short argument list is never read as a smaller meta. *)
Theorem parse_repl_meta_truncated (c1 c2 : Resp) (meta : ReplicatorMeta) :
  valid_meta meta ->
  parse_repl_meta (Arr (c1 :: c2 :: map (fun s => Bulk (Str s))
                          (removelast (encode_repl_meta meta)))) = Err ParseError.
Proof.
  intros Hv; unfold parse_repl_meta.
  rewrite arg_strings_bulk by (apply Forall_removelast, encode_repl_meta_valid; exact Hv).
  destruct Hv as [He [Hm Hr]].
  destruct meta as [ep fl ms rs]; cbn [epoch flags masters replicas] in He, Hm, Hr |- *.
  unfold encode_repl_meta; cbn [epoch flags masters replicas app].
  destruct (list_last_cases rs) as [-> | [rs' [r ->]]].
  - destruct (list_last_cases ms) as [-> | [ms' [m ->]]].
    + (* no role group: only the epoch is left *)
      cbn [flat_map app removelast]; cbv beta iota zeta.
      destruct (parse_u64 (u64_to_string ep)); reflexivity.
    + (* the last group is the last master's *)
      apply Forall_app in Hm as [Hm' Hm1]; inversion Hm1 as [|? ? Hmo _]; subst.
      destruct m as [db node reps]; destruct Hmo as [_ [_ [_ Hlt]]]; cbn in Hlt.
      rewrite flat_map_app; cbn [flat_map]; rewrite !app_nil_r.
      rewrite !app_comm_cons, removelast_app by (unfold encode_master; discriminate).
      rewrite <- !app_comm_cons; cbv beta iota zeta.
      rewrite parse_u64_to_string by exact He.
      match goal with |- context [parse_roles ?f (flat_map encode_master ms' ++ ?rest) [] []] =>
        destruct (parse_roles_masters ms' rest f [] [] Hm' (le_n _)) as [f1 [_ E1]] end.
      rewrite E1; unfold encode_master; cbn [MasterMeta.db_name MasterMeta.master_node_address
        MasterMeta.replicas].
      rewrite parse_roles_truncated_group by exact Hlt; reflexivity.
  - (* the last group is the last replica's *)
    apply Forall_app in Hr as [Hr' Hr1]; inversion Hr1 as [|? ? Hro _]; subst.
    destruct r as [db node peers]; destruct Hro as [_ [_ [_ Hlt]]]; cbn in Hlt.
    rewrite flat_map_app; cbn [flat_map]; rewrite !app_nil_r.
    rewrite !app_assoc, !app_comm_cons, removelast_app by (unfold encode_replica; discriminate).
    rewrite <- !app_comm_cons, <- !app_assoc; cbv beta iota zeta.
    rewrite parse_u64_to_string by exact He.
    match goal with |- context [parse_roles ?f (flat_map encode_master ms ++ ?rest) [] []] =>
      destruct (parse_roles_masters ms rest f [] [] Hm (le_n _)) as [f1 [Hf1 E1]] end.
    rewrite E1.
    destruct (parse_roles_replicas rs' _ f1 (app [] ms) [] Hr' Hf1) as [f2 [_ E2]].
    rewrite E2; unfold encode_replica; cbn [ReplicaMeta.db_name
      ReplicaMeta.replica_node_address ReplicaMeta.masters].
    rewrite parse_roles_truncated_group by exact Hlt; reflexivity.
Qed.

End ReplicatorExtras.

Module ReplicatorExtrasWitnesses.
Import Replicator ReplicatorExtras.
Local Open Scope string_scope.

Lemma sample_repl_meta_valid : valid_meta sample_repl_meta.
Proof.
  unfold valid_meta, master_ok, replica_ok, peer_ok; simpl.
  repeat split; repeat constructor; vm_compute; reflexivity.
Qed.

Lemma parse_repl_meta_skips_elements_witness :
  parse_repl_meta (Arr [Bulk (Str "UMCTL"); Bulk (Str "SETREPL"); Bulk (Str "7");
                        Integer "1"; Bulk (Str "NOFLAG")]) =
  parse_repl_meta (Arr [Simple "a"; ArrNil; Bulk (Str "7"); Bulk (Str "NOFLAG")]) /\
  parse_repl_meta (Arr [Simple "a"; ArrNil; Bulk (Str "7"); Bulk (Str "NOFLAG")]) =
    Ok {| epoch := 7; flags := {| force := false |}; masters := []; replicas := [] |}.
Proof.
  split; [| vm_compute; reflexivity].
  apply (parse_repl_meta_skips_elements (Bulk (Str "UMCTL")) (Bulk (Str "SETREPL"))
           (Simple "a") ArrNil (Integer "1") [Bulk (Str "7")] [Bulk (Str "NOFLAG")]).
  intros s Hs; discriminate Hs.
Defined.

Lemma parse_repl_meta_extra_group_witness :
  parse_repl_meta (Arr (Bulk (Str "UMCTL") :: Bulk (Str "SETREPL") ::
                        map (fun s => Bulk (Str s))
                          (encode_repl_meta sample_repl_meta ++
                           ["Master"; "otherdb"; "localhost:7000"; "0"]))) =
    Ok {| epoch := 233; flags := {| force := false |};
          masters := masters sample_repl_meta ++
            [{| MasterMeta.db_name := "otherdb";
                MasterMeta.master_node_address := "localhost:7000";
                MasterMeta.replicas := [] |}];
          replicas := replicas sample_repl_meta |}.
Proof.
  rewrite (parse_repl_meta_extra_group (Bulk (Str "UMCTL")) (Bulk (Str "SETREPL"))
             sample_repl_meta "Master" "otherdb" "localhost:7000").
  - vm_compute; reflexivity.
  - exact sample_repl_meta_valid.
  - reflexivity.
  - reflexivity.
  - reflexivity.
Defined.

Lemma parse_repl_meta_truncated_witness :
  parse_repl_meta (Arr (Bulk (Str "UMCTL") :: Bulk (Str "SETREPL") ::
                        map (fun s => Bulk (Str s)) (removelast (encode_repl_meta sample_repl_meta)))) =
    Err ParseError.
Proof. apply parse_repl_meta_truncated; exact sample_repl_meta_valid. Defined.

End ReplicatorExtrasWitnesses.

(** ** Further properties of the memory-broker handlers *)

Module BrokerExtras.
Import Broker.

Ltac unfold_handlers :=
  unfold mutating_handler, op_then_sync, op_and_sync, bind, trigger_update,
    update_meta_file, ret, from_sync_error.

(** A mutating handler whose store-level operation fails answers that
    operation's error with the store the operation left. The handlers of the
    [op?] shape (every mutating route but PUT /clusters/balance and POST
    /proxies/failover) then stop, persisting nothing; the handlers of
    balance_masters and replace_failed_node still run [trigger_update], and
    the operation's error wins over a failed persistence. *)
Theorem mutating_handler_op_error (config : MemBrokerConfig)
    (meta_storage_store : MetaStore -> Result unit MetaSyncError) {A : Type}
    (r : MutRoute) (op : M (Result A MetaStoreError)) (s s1 : MetaStore)
    (tr : list StoreEvent) (e : MetaStoreError) :
  op s = (Err e, s1, tr) ->
  (r <> BalanceMasters -> r <> ReplaceFailedNode ->
     mutating_handler config meta_storage_store r op s = (Err e, s1, tr)) /\
  (r = BalanceMasters \/ r = ReplaceFailedNode ->
     mutating_handler config meta_storage_store r op s =
       (Err e, s1, (tr ++ if auto_update_meta_file config then [PersistFile] else [])%list)).
Proof.
  intros Hop; split.
  - intros H1 H2; unfold_handlers.
    destruct r; try congruence; rewrite Hop; cbn; rewrite app_nil_r; reflexivity.
  - intros Hr; unfold_handlers.
    destruct Hr as [-> | ->]; rewrite Hop; cbn;
      destruct (auto_update_meta_file config); cbn;
      destruct (meta_storage_store s1); cbn; rewrite ?app_nil_r; reflexivity.
Qed.

(** With [auto_update_meta_file] off, [trigger_update] does nothing, and
    every mutating handler behaves as its store-level operation alone: same
    answer, same store, same lock events, and the file is never written. *)
Theorem mutating_handler_no_auto_update (config : MemBrokerConfig)
    (meta_storage_store : MetaStore -> Result unit MetaSyncError) {A : Type} :
  auto_update_meta_file config = false ->
  forall (r : MutRoute) (op : M (Result A MetaStoreError)) (s : MetaStore),
    mutating_handler config meta_storage_store r op s = op s.
Proof.
  intros Hauto r op s; unfold_handlers; rewrite Hauto.
  destruct r; cbv beta; destruct (op s) as [[res s1] tr];
    destruct res; cbn; rewrite ?app_nil_r; reflexivity.
Qed.

(** While another scaling operation holds the scale lock, the scaling
    routes (auto_add_nodes, auto_scale_up_nodes, audo_delete_free_nodes,
    migrate_slots, migrate_slots_to_scale_down, auto_scale_node_number)
    answer [NodeNumberChanging] (HTTP 409) without touching the store: no
    lock on it is taken and nothing is persisted. *)
Theorem scaling_routes_busy (config : MemBrokerConfig)
    (meta_storage_store : MetaStore -> Result unit MetaSyncError)
    (r : MutRoute) (s : MetaStore) :
  In r [AutoScaleUpNodes; AutoAddNodes; AudoDeleteFreeNodes; MigrateSlots;
        MigrateSlotsToScaleDown] ->
  (forall A (f : MetaStore -> Result A MetaStoreError * MetaStore),
     mutating_handler config meta_storage_store r (locked_store_op None f) s =
       (Err NodeNumberChanging, s, [])) /\
  (forall ScaleOp is_noop_or_scale_down auto_change_node_number auto_scale_out_node_number
          wait_for_proxy_epoch cluster_name new_node_num,
     mutating_handler config meta_storage_store AutoScaleNodeNumber
       (auto_scale_node_number ScaleOp is_noop_or_scale_down auto_change_node_number
          auto_scale_out_node_number wait_for_proxy_epoch None cluster_name new_node_num) s =
       (Err NodeNumberChanging, s, [])) /\
  status_code NodeNumberChanging = 409.
Proof.
  intros Hr; split; [| split; [| reflexivity]].
  - intros A f; simpl in Hr.
    unfold locked_store_op, with_scale_lock; unfold_handlers.
    destruct Hr as [<- | [<- | [<- | [<- | [<- | []]]]]]; reflexivity.
  - intros; unfold auto_scale_node_number, with_scale_lock; unfold_handlers; reflexivity.
Qed.

(** PUT /clusters/autoscale (scale lock free), after the first phase
    [auto_change_node_number] succeeded and left the store [s1]: a no-op or
    scale-down stops there; when the proxies do not reach the cluster epoch
    the handler answers [ProxyNotSync] (HTTP 500) with the first phase's
    changes kept in memory and, the error coming before [trigger_update],
    not persisted; otherwise the second phase runs under a second write
    lock on [s1]. *)
Theorem auto_scale_node_number_phases (config : MemBrokerConfig)
    (meta_storage_store : MetaStore -> Result unit MetaSyncError)
    (ScaleOp : Type) (is_noop_or_scale_down : ScaleOp -> bool)
    auto_change_node_number auto_scale_out_node_number wait_for_proxy_epoch
    (cluster_name : string) (new_node_num : nat) (s s1 : MetaStore)
    (scale_op : ScaleOp) (proxy_addresses : list string) (cluster_epoch : N) :
  auto_change_node_number cluster_name new_node_num s =
    (Ok (scale_op, proxy_addresses, cluster_epoch), s1) ->
  let method := auto_scale_node_number ScaleOp is_noop_or_scale_down auto_change_node_number
                  auto_scale_out_node_number wait_for_proxy_epoch (Some tt)
                  cluster_name new_node_num in
  (is_noop_or_scale_down scale_op = true -> method s = (Ok tt, s1, [WriteLock])) /\
  (is_noop_or_scale_down scale_op = false ->
   forall failed_proxy, wait_for_proxy_epoch proxy_addresses cluster_epoch = Err failed_proxy ->
     method s = (Err ProxyNotSync, s1, [WriteLock]) /\
     mutating_handler config meta_storage_store AutoScaleNodeNumber method s =
       (Err ProxyNotSync, s1, [WriteLock]) /\
     status_code ProxyNotSync = 500) /\
  (is_noop_or_scale_down scale_op = false ->
   wait_for_proxy_epoch proxy_addresses cluster_epoch = Ok tt ->
     method s = (fst (auto_scale_out_node_number cluster_name new_node_num s1),
                 snd (auto_scale_out_node_number cluster_name new_node_num s1),
                 [WriteLock; WriteLock])).
Proof.
  intros H1 method.
  assert (Hm : method s =
    let '(a, s2, t2) :=
      (if is_noop_or_scale_down scale_op then ret (Ok tt)
       else match wait_for_proxy_epoch proxy_addresses cluster_epoch with
            | Err _ => ret (Err ProxyNotSync)
            | Ok _ => write_store (auto_scale_out_node_number cluster_name new_node_num)
            end) s1 in (a, s2, (WriteLock :: t2)%list)).
  { unfold method, auto_scale_node_number, with_scale_lock, bind, write_store.
    rewrite H1; reflexivity. }
  split; [| split].
  - intros Hn; rewrite Hm, Hn; reflexivity.
  - intros Hn fp Hw.
    assert (Hms : method s = (Err ProxyNotSync, s1, [WriteLock])).
    { rewrite Hm, Hn, Hw; reflexivity. }
    split; [exact Hms | split; [| reflexivity]].
    unfold_handlers; rewrite Hms; reflexivity.
  - intros Hn Hw; rewrite Hm, Hn, Hw; unfold write_store.
    destruct (auto_scale_out_node_number cluster_name new_node_num s1); reflexivity.
Qed.

End BrokerExtras.

Module BrokerExtrasWitnesses.
Import Broker BrokerExtras.
Local Open Scope string_scope.

(** The store after the global epoch is bumped. *)
Definition sample_bump_epoch_store (s : MetaStore) : MetaStore := snd (fst (sample_bump_epoch s)).

(** A store-level operation that fails after taking the write lock. *)
Definition sample_failing_op : M (Result unit MetaStoreError) :=
  fun s => (Err ClusterNotFound, s, [WriteLock]).

Lemma mutating_handler_op_error_witness :
  mutating_handler sample_config (fun _ => Err Lock) AddCluster sample_failing_op sample_store =
    (Err ClusterNotFound, sample_store, [WriteLock]) /\
  mutating_handler sample_config (fun _ => Err Lock) BalanceMasters sample_failing_op sample_store =
    (Err ClusterNotFound, sample_store, [WriteLock; PersistFile]).
Proof.
  destruct (mutating_handler_op_error sample_config (fun _ => Err Lock) AddCluster
              sample_failing_op sample_store sample_store [WriteLock] ClusterNotFound eq_refl)
    as [H1 _].
  destruct (mutating_handler_op_error sample_config (fun _ => Err Lock) BalanceMasters
              sample_failing_op sample_store sample_store [WriteLock] ClusterNotFound eq_refl)
    as [_ H2].
  split; [apply H1; discriminate | apply H2; left; reflexivity].
Defined.

Lemma mutating_handler_no_auto_update_witness :
  mutating_handler {| failure_ttl := 60; failure_quorum := 1; auto_update_meta_file := false;
                      debug := false |} (fun _ => Err Lock) BalanceMasters sample_bump_epoch
    sample_store = sample_bump_epoch sample_store.
Proof. apply mutating_handler_no_auto_update; reflexivity. Defined.

Lemma scaling_routes_busy_witness :
  mutating_handler sample_config (fun _ => Ok tt) MigrateSlots
    (locked_store_op None (fun s => (Ok tt, s))) sample_store =
    (Err NodeNumberChanging, sample_store, []).
Proof.
  destruct (scaling_routes_busy sample_config (fun _ => Ok tt) MigrateSlots sample_store)
    as [H _]; [simpl; tauto |].
  apply H.
Defined.

Lemma auto_scale_node_number_phases_witness :
  mutating_handler sample_config (fun _ => Ok tt) AutoScaleNodeNumber
    (auto_scale_node_number bool (fun b => b)
       (fun _ _ s => (Ok (false, ["127.0.0.1:6001"], 12%N), sample_bump_epoch_store s))
       (fun _ _ s => (Ok tt, s)) (fun _ _ => Err "127.0.0.1:6001") (Some tt) "mydb" 4)
    sample_store =
    (Err ProxyNotSync, sample_bump_epoch_store sample_store, [WriteLock]).
Proof.
  destruct (auto_scale_node_number_phases sample_config (fun _ => Ok tt) bool (fun b => b)
              (fun _ _ s => (Ok (false, ["127.0.0.1:6001"], 12%N), sample_bump_epoch_store s))
              (fun _ _ s => (Ok tt, s)) (fun _ _ => Err "127.0.0.1:6001") "mydb" 4
              sample_store (sample_bump_epoch_store sample_store) false ["127.0.0.1:6001"] 12%N
              eq_refl) as [_ [H _]].
  apply (H eq_refl "127.0.0.1:6001" eq_refl).
Defined.

End BrokerExtrasWitnesses.
